(** * world-without-space: the probability-distribution engine of [main.go]

    A shallow embedding of [QuantumObject] (a weighted distribution over grid
    cells that may collapse to one cell) and of the operations
    [NormalizeDistribution], [Collapse], [MeasureInteraction] and
    [CollapseAll], followed by the properties the specification states
    about them, and then by further properties of these operations and of
    the rest of the file: [String], [AddQuantumObject],
    [uniformDistribution], [gaussFactor] and [exampleScenario].

    Modelling conventions.
    - [float64] weights are exact rationals ([Qc]): sums, products and
      quotients never round, so an equation between weights that is proved
      here holds of the program up to the rounding of [float64].  Every
      concrete input below uses weights for which IEEE-754 double
      arithmetic is exact as well, or rounds to the same value
      (0.3 + 0.7 = 1).
    - [map[[2]int]float64] is a finite map [gmap Coord Qc].  A nil map and an
      empty map behave alike in this program (no statement writes to a map
      that may be nil) and are both [∅].
    - Go leaves the iteration order of [range] over a map unspecified and
      may change it from one loop to the next.  Every [range] statement
      therefore takes its order from a schedule carried by the environment
      (see [entries_in] and [range]); properties quantify over all
      schedules.
    - [rand.Float64()] reads the next number of a stream of draws carried
      by the environment.
    - Objects are handled through pointers ([*QuantumObject]); the
      environment holds the store they point into, so that two pointers
      may alias.  Dereferencing a pointer that is not allocated is the only
      run-time panic of the program and is the [None] of the monad [M].
      Each object owns its map (no two objects share one map value).
    - [math.Exp] and the text written by [fmt.Println] lie outside the
      program: the first is a parameter of [gaussFactor] and of
      [exampleScenario], the second is the list of lines that
      [exampleScenario] returns.  [main] only seeds the generator from the
      clock and calls [exampleScenario]; the seed is the stream of draws
      of the environment. *)

From Stdlib Require Import QArith Qcanon Lqa Ascii String.
From stdpp Require Import gmap numbers list fin_maps strings pretty.

Local Open Scope Qc_scope.

(** ** Data model *)

(** [[2]int]: a grid cell. *)
Definition Coord : Type := (Z * Z)%type.

(** [map[[2]int]float64]. *)
Abbreviation Dist := (gmap Coord Qc).

(** A decimal literal [n/d]. *)
Definition frac (n : Z) (d : positive) : Qc := Q2Qc (n # d).

(** [type QuantumObject struct]. *)
Record QuantumObject : Type := mkQuantumObject {
  Name : string;
  CoordDist : Dist;
  IsCollapsed : bool;
  FinalCoord : Coord
}.

(** Field assignments [q.CoordDist = d], [q.IsCollapsed = b],
    [q.FinalCoord = c]. *)
Definition with_CoordDist (d : Dist) (o : QuantumObject) : QuantumObject :=
  mkQuantumObject (Name o) d (IsCollapsed o) (FinalCoord o).
Definition with_IsCollapsed (b : bool) (o : QuantumObject) : QuantumObject :=
  mkQuantumObject (Name o) (CoordDist o) b (FinalCoord o).
Definition with_FinalCoord (c : Coord) (o : QuantumObject) : QuantumObject :=
  mkQuantumObject (Name o) (CoordDist o) (IsCollapsed o) c.

(** The object [NewQuantumObject(name, dist)] points to: the two remaining
    fields take Go's zero values. *)
Definition NewQuantumObject (name : string) (dist : Dist) : QuantumObject :=
  mkQuantumObject name dist false (0, 0)%Z.

(** [*QuantumObject]. *)
Abbreviation ptr := nat (only parsing).

(** [type World struct]; [Objects] is a slice of pointers. *)
Record World : Type := mkWorld {
  Width : Z;
  Height : Z;
  Objects : list ptr
}.

Definition NewWorld (width height : Z) : World := mkWorld width height [].

Definition AddQuantumObject (w : World) (obj : ptr) : World :=
  mkWorld (Width w) (Height w) (Objects w ++ [obj]).

(** ** Enumeration order of [range] over a map *)

(** The entries of [m] in the order a schedule [ord] asks for: the keys of
    [ord] that [m] holds, in the order of their first occurrence, then the
    entries [ord] does not mention.  Whatever [ord] is, the result is a
    permutation of the entries of [m] ([entries_in_perm]), and every
    permutation is obtained from some [ord] ([entries_in_complete]). *)
Fixpoint entries_in (ord : list Coord) (m : Dist) : list (Coord * Qc) :=
  match ord with
  | [] => map_to_list m
  | k :: ord' =>
      match m !! k with
      | Some w => (k, w) :: entries_in ord' (delete k m)
      | None => entries_in ord' m
      end
  end.

(** ** The environment and the monad of the program *)

Record Env : Type := mkEnv {
  heap : gmap ptr QuantumObject;   (* the objects pointers refer to *)
  sched : nat → list Coord;        (* order of the n-th [range] loop executed *)
  nrange : nat;                    (* [range] loops executed so far *)
  rng : nat → Qc;                  (* n-th result of [rand.Float64()] *)
  nrand : nat                      (* draws made so far *)
}.

(** The environment after a computation that left the store as [h], ran
    [dr] more [range] loops and made [dn] more draws. *)
Definition advance (h : gmap ptr QuantumObject) (dr dn : nat) (e : Env) : Env :=
  mkEnv h (sched e) (nrange e + dr) (rng e) (nrand e + dn).

(** State passing, with [None] for a nil-pointer panic. *)
Definition M (A : Type) : Type := Env → option (A * Env).

#[global] Instance M_ret : MRet M := λ A a e, Some (a, e).
#[global] Instance M_bind : MBind M := λ A B f m e,
  match m e with
  | Some (a, e') => f a e'
  | None => None
  end.

(** [*p]: read the object behind a pointer. *)
Definition load (p : ptr) : M QuantumObject := λ e,
  match heap e !! p with
  | Some o => Some (o, e)
  | None => None
  end.

(** [p.field = ...]: update the object behind a pointer. *)
Definition modify (p : ptr) (f : QuantumObject → QuantumObject) : M unit := λ e,
  match heap e !! p with
  | Some o => Some (tt, advance (<[p := f o]> (heap e)) 0 0 e)
  | None => None
  end.

(** The entries a [for k, v := range m] loop visits, in the order of the
    schedule. *)
Definition range (m : Dist) : M (list (Coord * Qc)) := λ e,
  Some (entries_in (sched e (nrange e)) m, advance (heap e) 1 0 e).

(** [rand.Float64()]. *)
Definition rand_Float64 : M Qc := λ e,
  Some (rng e (nrand e), advance (heap e) 0 1 e).

(** A loop over a slice or over the entries of a [range], without [break]. *)
Fixpoint for_each {A : Type} (l : list A) (body : A → M unit) : M unit :=
  match l with
  | [] => mret tt
  | x :: l' => body x ;; for_each l' body
  end.

(** ** NormalizeDistribution (main.go, lines 28-38) *)

(** [for _, w := range q.CoordDist { total += w }], from [total := 0.0]. *)
Definition sum_weights (es : list (Coord * Qc)) : Qc :=
  foldl (λ total e, total + e.2) 0 es.

(** [q.CoordDist[k] = v]. *)
Definition set_weight (q : ptr) (k : Coord) (v : Qc) : M unit :=
  modify q (λ o, with_CoordDist (<[k := v]> (CoordDist o)) o).

(** The second loop assigns only to keys that are already present, which
    Go allows during a [range]; each entry is visited once, so the weight
    [w] it reads is the one the map held when the loop began. *)
Definition NormalizeDistribution (q : ptr) : M unit :=
  o ← load q;
  es ← range (CoordDist o);
  let total := sum_weights es in
  if bool_decide (0 < total) then
    o ← load q;
    es ← range (CoordDist o);
    for_each es (λ '(k, w), set_weight q k (w / total))
  else mret tt.

(** ** Collapse (main.go, lines 41-56) *)

(** The selection loop, from the running sum [cumulative]; selecting a
    coordinate ends the loop ([break]). *)
Fixpoint Collapse_loop (q : ptr) (r cumulative : Qc) (es : list (Coord * Qc)) : M unit :=
  match es with
  | [] => mret tt
  | (coord, prob) :: es' =>
      let cumulative := cumulative + prob in
      if bool_decide (r ≤ cumulative) then
        modify q (with_FinalCoord coord) ;;
        modify q (with_IsCollapsed true)
      else Collapse_loop q r cumulative es'
  end.

Definition Collapse (q : ptr) : M unit :=
  o ← load q;
  if IsCollapsed o then mret tt
  else
    NormalizeDistribution q ;;
    r ← rand_Float64;
    o ← load q;
    es ← range (CoordDist o);
    Collapse_loop q r 0 es.

(** ** MeasureInteraction (main.go, lines 92-133) *)

(** [m[c] += w]: a key that is absent reads as [0]. *)
Definition accumulate (c : Coord) (w : Qc) (m : Dist) : Dist :=
  <[c := default 0 (m !! c) + w]> m.

(** The body of the two nested loops (lines 110-116), on the pair
    [(newDist1, newDist2)]. *)
Definition combine_step (c1 : Coord) (p1 : Qc) (c2 : Coord) (p2 : Qc)
    (acc : Dist * Dist) : Dist * Dist :=
  if bool_decide (c1 = c2) && bool_decide (0 < p1) && bool_decide (0 < p2) then
    let w := p1 * p2 in
    if bool_decide (0 < w) then (accumulate c1 w acc.1, accumulate c2 w acc.2)
    else acc
  else acc.

(** The inner loop [for c2, p2 := range obj2.CoordDist] for one [c1, p1]. *)
Definition combine_inner (c1 : Coord) (p1 : Qc) (es2 : list (Coord * Qc))
    (acc : Dist * Dist) : Dist * Dist :=
  foldl (λ acc e2, combine_step c1 p1 e2.1 e2.2 acc) acc es2.

(** The outer loop; the inner [range] is a new [range] at every turn. *)
Fixpoint combine_outer (obj2 : ptr) (es1 : list (Coord * Qc)) (acc : Dist * Dist)
    : M (Dist * Dist) :=
  match es1 with
  | [] => mret acc
  | (c1, p1) :: es1' =>
      o2 ← load obj2;
      es2 ← range (CoordDist o2);
      combine_outer obj2 es1' (combine_inner c1 p1 es2 acc)
  end.

(** Lines 102-118: the two maps [newDist1], [newDist2] built from the
    distributions of [obj1] and [obj2] (the specification's [combine]). *)
Definition combine (obj1 obj2 : ptr) : M (Dist * Dist) :=
  o1 ← load obj1;
  es1 ← range (CoordDist o1);
  combine_outer obj2 es1 (∅, ∅).

(** [obj1.IsCollapsed && obj2.IsCollapsed]: [&&] reads its right operand
    only when the left one is true. *)
Definition both_collapsed (obj1 obj2 : ptr) : M bool :=
  o1 ← load obj1;
  if IsCollapsed o1 then o2 ← load obj2; mret (IsCollapsed o2)
  else mret false.

(** The receiver [w *World] is never read by the method (the name [w] is
    even reused for the joint weight), so it is not a parameter here. *)
Definition MeasureInteraction (obj1 obj2 : ptr) : M unit :=
  both ← both_collapsed obj1 obj2;
  if (both : bool) then mret tt
  else
    NormalizeDistribution obj1 ;;
    NormalizeDistribution obj2 ;;
    '(newDist1, newDist2) ← combine obj1 obj2;
    if bool_decide (size newDist1 = 0%nat) || bool_decide (size newDist2 = 0%nat)
    then mret tt
    else
      modify obj1 (with_CoordDist newDist1) ;;
      modify obj2 (with_CoordDist newDist2) ;;
      Collapse obj1 ;;
      Collapse obj2.

(** ** CollapseAll (main.go, lines 136-140) *)

Definition CollapseAll (w : World) : M unit :=
  for_each (Objects w) Collapse.

(** ** Notions the properties are stated with *)

(** The sum of all the weights of a distribution. *)
Definition total (m : Dist) : Qc := sum_weights (map_to_list m).

(** A distribution with every weight divided by the total, when the total
    is positive. *)
Definition normalized (m : Dist) : Dist :=
  if bool_decide (0 < total m) then (λ w, w / total m) <$> m else m.

(** The coordinates that carry a positive weight in both distributions,
    each with the product of its two weights. *)
Definition overlap (m1 m2 : Dist) : Dist :=
  intersection_with
    (λ p1 p2, if bool_decide (0 < p1) && bool_decide (0 < p2)
              then Some (p1 * p2) else None)
    m1 m2.

(** The running sum after the [i]-th entry of an enumeration (from 0). *)
Definition cumulative_at (es : list (Coord * Qc)) (i : nat) : Qc :=
  sum_weights (take (S i) es).

(** The coordinate the selection loop stops at, if any. *)
Fixpoint selected (r cumulative : Qc) (es : list (Coord * Qc)) : option Coord :=
  match es with
  | [] => None
  | (coord, prob) :: es' =>
      if bool_decide (r ≤ cumulative + prob) then Some coord
      else selected r (cumulative + prob) es'
  end.

(** An object as [Collapse] leaves it when the loop selects [c]. *)
Definition collapsed_at (c : Coord) (o : QuantumObject) : QuantumObject :=
  with_IsCollapsed true (with_FinalCoord c o).

(** Resolution is kept from store [h] to store [h']: an object collapsed in
    [h] is still there in [h'], collapsed, at the same coordinate. *)
Definition resolution_kept (h h' : gmap ptr QuantumObject) : Prop :=
  ∀ p o, h !! p = Some o → IsCollapsed o = true →
    ∃ o', h' !! p = Some o' ∧ IsCollapsed o' = true ∧ FinalCoord o' = FinalCoord o.


(** The object [NormalizeDistribution] leaves behind. *)
Definition normalized_obj (o : QuantumObject) : QuantumObject :=
  with_CoordDist (normalized (CoordDist o)) o.

(** The number of [range] loops one [NormalizeDistribution] runs. *)
Definition norm_loops (d : Dist) : nat :=
  if bool_decide (0 < total d) then 2%nat else 1%nat.

(** The enumeration the selection loop of [Collapse] walks when [Collapse]
    is called in environment [e] on an uncollapsed object of distribution
    [d]: the normalized entries, in the order of the schedule's turn. *)
Definition Collapse_entries (e : Env) (d : Dist) : list (Coord * Qc) :=
  entries_in (sched e (nrange e + norm_loops d)) (normalized d).

(** The object a call of [Collapse] in environment [e] leaves behind. *)
Definition Collapse_obj (e : Env) (o : QuantumObject) : QuantumObject :=
  if IsCollapsed o then o
  else
    match selected (rng e (nrand e)) 0 (Collapse_entries e (CoordDist o)) with
    | Some c => collapsed_at c (normalized_obj o)
    | None => normalized_obj o
    end.


(** ** Concrete inputs *)

(** An environment for a store [h] in which every [range] loop enumerates
    in the order [ord] and the successive draws are [draws], then 0. *)
Definition env_of (h : gmap ptr QuantumObject) (ord : list Coord) (draws : list Qc) : Env :=
  mkEnv h (λ _, ord) 0 (λ n, default 0 (draws !! n)) 0.

(** An object with the weights [{(0,0): 2}], alone in the store. *)
Definition obj_two : QuantumObject :=
  NewQuantumObject "a" {[ (0, 0)%Z := frac 2 1 ]}.



(** The distributions [A = {(0,0): 0.5, (1,1): 0.5}] and [B = {(1,1): 1.0}]
    in two objects. *)
Definition obj_A : QuantumObject :=
  NewQuantumObject "A" (<[ (0, 0)%Z := frac 1 2 ]> {[ (1, 1)%Z := frac 1 2 ]}).

Definition obj_B : QuantumObject :=
  NewQuantumObject "B" {[ (1, 1)%Z := frac 1 1 ]}.

Definition env_AB : Env :=
  env_of (<[ 1%nat := obj_A ]> {[ 2%nat := obj_B ]}) [] [].


(** An object with the weights [{(0,0): 0.3, (1,0): 0.7}]; the store that
    holds it; an environment that enumerates [(0,0)] before [(1,0)] and
    whose first draw is [r]. *)
Definition obj_37 : QuantumObject :=
  NewQuantumObject "o" (<[ (0, 0)%Z := frac 3 10 ]> {[ (1, 0)%Z := frac 7 10 ]}).

Definition env_37 (r : Qc) : Env :=
  env_of {[ 1%nat := obj_37 ]} [(0, 0)%Z; (1, 0)%Z] [r].

(** The same store, enumerated the other way round. *)
Definition env_73 (r : Qc) : Env :=
  env_of {[ 1%nat := obj_37 ]} [(1, 0)%Z; (0, 0)%Z] [r].


(** An object whose only weight is zero, [{(0,0): 0}], alone in the store;
    the first draw is [r]. *)
Definition obj_zero : QuantumObject :=
  NewQuantumObject "z" {[ (0, 0)%Z := frac 0 1 ]}.

Definition env_zero (r : Qc) : Env := env_of {[ 1%nat := obj_zero ]} [] [r].


(** The object [obj_A] once collapsed at (0,0), next to [obj_B], and a
    world that lists both (the first one twice). *)
Definition obj_A_done : QuantumObject := collapsed_at (0, 0)%Z obj_A.

Definition env_done (draws : list Qc) : Env :=
  env_of (<[ 1%nat := obj_A_done ]> {[ 2%nat := obj_B ]}) [] draws.

Definition world_12 : World :=
  AddQuantumObject (AddQuantumObject (AddQuantumObject (NewWorld 10 10) 1%nat) 2%nat) 1%nat.


(** Two objects with no common coordinate, [{(0,0): 2}] and [{(1,1): 4}]. *)
Definition obj_four : QuantumObject :=
  NewQuantumObject "b" {[ (1, 1)%Z := frac 4 1 ]}.

Definition env_24 : Env :=
  env_of (<[ 1%nat := obj_two ]> {[ 2%nat := obj_four ]}) [] [].

(** Two uncollapsed objects with the weights [{(0,0): 1, (1,1): 1}] each;
    every [range] enumerates (0,0) first; the draws are 0.25, then 0.75. *)
Definition obj_11 (name : string) : QuantumObject :=
  NewQuantumObject name (<[ (0, 0)%Z := frac 1 1 ]> {[ (1, 1)%Z := frac 1 1 ]}).

Definition env_split : Env :=
  env_of (<[ 1%nat := obj_11 "a" ]> {[ 2%nat := obj_11 "b" ]})
         [(0, 0)%Z; (1, 1)%Z] [frac 1 4; frac 3 4].




(** From store [h] to store [h'] nothing is allocated or freed, every
    object keeps its name, no distribution gains a key, and the objects
    other than [a] and [b] are as they were. *)
Definition only_narrows (a b : ptr) (h h' : gmap ptr QuantumObject) : Prop :=
  dom h' = dom h ∧
  ∀ p o, h !! p = Some o →
    ∃ o', h' !! p = Some o' ∧ Name o' = Name o ∧
          dom (CoordDist o') ⊆ dom (CoordDist o) ∧
          (p ≠ a → p ≠ b → o' = o).



(** ** uniformDistribution (main.go, lines 143-151) *)

(** The two counting loops [for x := 0; x < width; x++] and
    [for y := 0; y < height; y++] visit [0, ..., width-1] and
    [0, ..., height-1], and nothing when the bound is not positive. *)
Definition uniformDistribution (width height : Z) : Dist :=
  foldl (λ dist x,
           foldl (λ dist y, <[(x, y) := 1]> dist) dist (seqZ 0 height))
        ∅ (seqZ 0 width).

(** An integer as a weight. *)
Definition Qc_of_Z (z : Z) : Qc := Q2Qc (inject_Z z).




(** ** String (main.go, lines 58-65) *)

(** The method [String] of [*QuantumObject] (named [QuantumObject_String]
    here, [String] being the constructor of Rocq's strings).  [%s] copies
    the name, [%d] writes an integer in decimal, with a leading [-] when it
    is negative, which is what [pretty] does on [Z]. *)
Definition QuantumObject_String (q : QuantumObject) : string :=
  if IsCollapsed q then
    "<" +:+ Name q +:+ " collapsed at (" +:+ pretty (FinalCoord q).1 +:+ ", "
        +:+ pretty (FinalCoord q).2 +:+ ")>"
  else
    "<" +:+ Name q +:+ " in superposition (uncollapsed)>".

(** The characters [%d] can write. *)
Definition decimal_char (c : ascii) : Prop :=
  c ∈ list_ascii_of_string "0123456789-".


(** ** gaussFactor (main.go, lines 154-159) *)

(** The values of Go's [int]: 64 bits, two's complement. *)
Definition is_int (z : Z) : Prop := (- 2 ^ 63 ≤ z < 2 ^ 63)%Z.

(** The [int] an operation yields when its exact result is [z]: Go wraps
    around without a panic. *)
Definition wrap_int (z : Z) : Z := ((z + 2 ^ 63) mod 2 ^ 64 - 2 ^ 63)%Z.

(** [math.Exp] belongs to Go's library, not to this program: the model
    takes it as the parameter [math_Exp], a function on weights.  The
    conversion [float64(n)] is taken as [n] itself (it is exact up to
    2^53 in absolute value). *)
Definition gaussFactor (math_Exp : Qc → Qc) (x y cx cy : Z) : Qc :=
  let dx := Qc_of_Z (wrap_int (x - cx)) in
  let dy := Qc_of_Z (wrap_int (y - cy)) in
  let distSq := dx * dx + dy * dy in
  math_Exp (frac (-5) 10 * distSq).

(** ** exampleScenario (main.go, lines 161-206) *)







(** A rational function with the two properties of [math.Exp] that the
    properties below rely on: it is positive and it never decreases (and
    it is 1 at 0). *)
Definition exp_rational (u : Qc) : Qc :=
  if bool_decide (u < 0) then 1 / (1 - u) else 1 + u.



(** * Properties *)

(** ** The enumeration of a map *)

Lemma entries_in_perm (ord : list Coord) (m : Dist) :
  entries_in ord m ≡ₚ map_to_list m.
Proof.
  revert m. induction ord as [|k ord IH]; intros m; simpl; [done|].
  destruct (m !! k) as [w|] eqn:Hk; [|apply IH].
  rewrite IH. by apply map_to_list_delete.
Qed.

Lemma elem_of_entries_in (ord : list Coord) (m : Dist) (k : Coord) (w : Qc) :
  (k, w) ∈ entries_in ord m ↔ m !! k = Some w.
Proof. rewrite entries_in_perm. apply elem_of_map_to_list. Qed.

Lemma NoDup_entries_in (ord : list Coord) (m : Dist) :
  NoDup (entries_in ord m).*1.
Proof. rewrite entries_in_perm. apply NoDup_fst_map_to_list. Qed.

Lemma not_elem_of_entries_in (ord : list Coord) (m : Dist) (k : Coord) :
  m !! k = None → k ∉ (entries_in ord m).*1.
Proof.
  intros Hk [[k' w] [-> Hin]]%list_elem_of_fmap.
  apply elem_of_entries_in in Hin. simpl in Hk. congruence.
Qed.

Lemma entries_in_empty (ord : list Coord) : entries_in ord ∅ = [].
Proof.
  apply Permutation_nil_r. rewrite entries_in_perm. by rewrite map_to_list_empty.
Qed.

(** Every enumeration of the entries of a map is the one some schedule
    asks for: the schedule that lists its keys. *)
Lemma entries_in_complete (l : list (Coord * Qc)) (m : Dist) :
  l ≡ₚ map_to_list m → entries_in l.*1 m = l.
Proof.
  revert m. induction l as [|[k w] l IH]; intros m Hl; simpl.
  - symmetry in Hl. by apply Permutation_nil_r in Hl.
  - assert (m !! k = Some w) as Hk.
    { apply elem_of_map_to_list. rewrite <- Hl. left. }
    rewrite Hk. f_equal. apply IH.
    apply (Permutation_cons_inv (a := (k, w))).
    rewrite Hl. symmetry. by apply map_to_list_delete.
Qed.

(** ** Sums of weights *)

Lemma sum_weights_cons (e : Coord * Qc) (es : list (Coord * Qc)) :
  sum_weights (e :: es) = e.2 + sum_weights es.
Proof.
  unfold sum_weights. simpl.
  assert (∀ a b, foldl (λ t (x : Coord * Qc), t + x.2) (a + b) es
                 = b + foldl (λ t (x : Coord * Qc), t + x.2) a es) as H.
  { induction es as [|x es IH]; intros a b; simpl; [ring|].
    replace (a + b + x.2) with (a + x.2 + b) by ring. apply IH. }
  apply H.
Qed.

Lemma sum_weights_snoc (es : list (Coord * Qc)) (e : Coord * Qc) :
  sum_weights (es ++ [e]) = sum_weights es + e.2.
Proof. unfold sum_weights. by rewrite foldl_app. Qed.

#[global] Instance sum_weights_perm : Proper ((≡ₚ) ==> (=)) sum_weights.
Proof.
  intros l1 l2 Hp. induction Hp as [|x l1 l2 _ IH|x y l|l1 l2 l3 _ IH1 _ IH2].
  - done.
  - by rewrite !sum_weights_cons, IH.
  - rewrite !sum_weights_cons. ring.
  - congruence.
Qed.

Lemma sum_weights_entries_in (ord : list Coord) (m : Dist) :
  sum_weights (entries_in ord m) = total m.
Proof. unfold total. by rewrite entries_in_perm. Qed.

Lemma sum_weights_scaled (t : Qc) (es : list (Coord * Qc)) :
  sum_weights (prod_map id (λ w, w / t) <$> es) = sum_weights es / t.
Proof.
  induction es as [|[k w] es IH].
  - unfold sum_weights, Qcdiv. simpl. ring.
  - rewrite fmap_cons, !sum_weights_cons, IH. simpl.
    unfold Qcdiv. ring.
Qed.

Lemma sum_weights_zero (es : list (Coord * Qc)) :
  Forall (λ e, e.2 = 0) es → sum_weights es = 0.
Proof.
  induction 1 as [|e es He _ IH]; [reflexivity|].
  rewrite sum_weights_cons, He, IH. ring.
Qed.


Lemma total_all_zero (m : Dist) :
  (∀ c w, m !! c = Some w → w = 0) → total m = 0.
Proof.
  intros Hz. apply sum_weights_zero, Forall_forall.
  intros [c w] Hin%elem_of_map_to_list. simpl. eauto.
Qed.

(** ** The normalized distribution *)

Lemma normalized_pos (m : Dist) :
  0 < total m → normalized m = (λ w, w / total m) <$> m.
Proof. intros H. unfold normalized. by rewrite bool_decide_eq_true_2. Qed.

Lemma normalized_not_pos (m : Dist) : ¬ 0 < total m → normalized m = m.
Proof. intros H. unfold normalized. by rewrite bool_decide_eq_false_2. Qed.

Lemma total_normalized (m : Dist) : 0 < total m → total (normalized m) = 1.
Proof.
  intros H. rewrite normalized_pos by done. unfold total at 1.
  rewrite map_to_list_fmap, sum_weights_scaled. fold (total m).
  field. by apply Qclt_not_eq in H.
Qed.

Lemma normalized_idemp (m : Dist) : normalized (normalized m) = normalized m.
Proof.
  destruct (decide (0 < total m)) as [H|H].
  - pose proof (total_normalized m H) as H1.
    rewrite (normalized_pos (normalized m)) by (by rewrite H1).
    rewrite H1. apply map_eq. intros c. rewrite lookup_fmap.
    destruct (normalized m !! c) as [w|]; simpl; [|done].
    f_equal. field. discriminate.
  - by rewrite (normalized_not_pos m H), (normalized_not_pos m H).
Qed.

Lemma lookup_normalized (m : Dist) (c : Coord) :
  normalized m !! c
  = (λ w, if bool_decide (0 < total m) then w / total m else w) <$> m !! c.
Proof.
  unfold normalized. case_bool_decide.
  - by rewrite lookup_fmap.
  - by destruct (m !! c).
Qed.

Lemma dom_normalized (m : Dist) : dom (normalized m) = dom m.
Proof.
  apply set_eq. intros c. rewrite !elem_of_dom, lookup_normalized.
  apply fmap_is_Some.
Qed.

(** Dividing by a positive total keeps the sign of a weight. *)
Lemma Qcdiv_pos_iff (w t : Qc) : 0 < t → 0 < w / t ↔ 0 < w.
Proof.
  intros Ht. assert (0 < / t) as Hinv by by apply Qcinv_pos.
  rewrite (Qcmult_lt_mono_pos_r 0 w (/ t) Hinv).
  by replace (0 * / t) with 0 by ring.
Qed.

Lemma normalized_positive (m : Dist) (c : Coord) :
  (∃ w, normalized m !! c = Some w ∧ 0 < w) ↔ (∃ w, m !! c = Some w ∧ 0 < w).
Proof.
  rewrite lookup_normalized. case_bool_decide as Ht; [|by destruct (m !! c)].
  destruct (m !! c) as [w|]; simpl; [|naive_solver].
  split; intros (w' & Heq & Hw); simplify_eq; eexists; (split; [done|]).
  - by apply (Qcdiv_pos_iff w (total m)).
  - by apply Qcdiv_pos_iff.
Qed.

(** ** Running the monad *)

Lemma advance_same (e : Env) : advance (heap e) 0 0 e = e.
Proof. destruct e. unfold advance. simpl. by rewrite !Nat.add_0_r. Qed.

Lemma advance_advance (h h' : gmap ptr QuantumObject) (a a' b b' : nat) (e : Env) :
  advance h' a' b' (advance h a b e) = advance h' (a + a') (b + b') e.
Proof. unfold advance. simpl. by rewrite !Nat.add_assoc. Qed.

Lemma bind_run {A B : Type} (m : M A) (f : A → M B) (e e1 : Env) (a : A) :
  m e = Some (a, e1) → (m ≫= f) e = f a e1.
Proof. intros H. unfold mbind, M_bind. by rewrite H. Qed.

Lemma mret_run {A : Type} (a : A) (e : Env) : (mret a : M A) e = Some (a, e).
Proof. reflexivity. Qed.

Lemma load_run (p : ptr) (o : QuantumObject) (e : Env) :
  heap e !! p = Some o → load p e = Some (o, e).
Proof. intros H. unfold load. by rewrite H. Qed.

Lemma modify_run (p : ptr) (f : QuantumObject → QuantumObject) (o : QuantumObject) (e : Env) :
  heap e !! p = Some o →
  modify p f e = Some (tt, advance (<[p := f o]> (heap e)) 0 0 e).
Proof. intros H. unfold modify. by rewrite H. Qed.

Lemma with_CoordDist_same (o : QuantumObject) : with_CoordDist (CoordDist o) o = o.
Proof. by destruct o. Qed.

(** The scaling loop of [NormalizeDistribution]: one assignment per entry. *)
Lemma scale_loop_run (q : ptr) (g : Qc → Qc) (es : list (Coord * Qc))
    (o : QuantumObject) (e : Env) :
  heap e !! q = Some o →
  for_each es (λ '(k, w), set_weight q k (g w)) e
  = Some (tt, advance
      (<[q := with_CoordDist (foldl (λ d x, <[x.1 := g x.2]> d) (CoordDist o) es) o]>
         (heap e)) 0 0 e).
Proof.
  revert o e. induction es as [|[k w] es IH]; intros o e Hq; simpl.
  - rewrite with_CoordDist_same, insert_id by done. by rewrite advance_same.
  - unfold set_weight at 1.
    erewrite bind_run by by apply modify_run.
    erewrite IH by (simpl; apply lookup_insert_eq).
    simpl. by rewrite advance_advance, insert_insert_eq.
Qed.

(** What the scaling loop leaves in the map. *)
Lemma scale_entries (g : Qc → Qc) (es : list (Coord * Qc)) (m : Dist) :
  es ≡ₚ map_to_list m →
  foldl (λ d x, <[x.1 := g x.2]> d) m es = g <$> m.
Proof.
  intros Hes.
  assert (∀ (l : list (Coord * Qc)) (d : Dist) (c : Coord),
    foldl (λ d x, <[x.1 := g x.2]> d) d l !! c
    = match list_find (λ x, x.1 = c) (reverse l) with
      | Some (_, x) => Some (g x.2)
      | None => d !! c
      end) as Hfold.
  { induction l as [|x l IH] using rev_ind; intros d c; [done|].
    rewrite foldl_app, reverse_snoc. simpl.
    case_decide as Hx; simpl.
    - by rewrite <- Hx, lookup_insert_eq.
    - rewrite lookup_insert_ne by done. rewrite IH.
      by destruct (list_find _ (reverse l)) as [[i y]|]. }
  apply map_eq. intros c. rewrite Hfold, lookup_fmap.
  destruct (list_find _ (reverse es)) as [[i [c' w]]|] eqn:Hfind.
  - apply list_find_Some in Hfind as (Hi%list_elem_of_lookup_2 & Hc & _).
    simpl in Hc. subst c'.
    rewrite elem_of_reverse, Hes, elem_of_map_to_list in Hi. by rewrite Hi.
  - destruct (m !! c) as [w|] eqn:Hc; [|done].
    apply elem_of_map_to_list in Hc. rewrite <- Hes, <- elem_of_reverse in Hc.
    apply list_find_None in Hfind. rewrite Forall_forall in Hfind.
    by destruct (Hfind _ Hc).
Qed.

(** [NormalizeDistribution] on an allocated object never panics; it leaves
    the normalized distribution in the object, whatever the schedule. *)
Lemma NormalizeDistribution_run (q : ptr) (o : QuantumObject) (e : Env) :
  heap e !! q = Some o →
  NormalizeDistribution q e
  = Some (tt, advance (<[q := normalized_obj o]> (heap e))
                (norm_loops (CoordDist o)) 0 e).
Proof.
  intros Hq. unfold NormalizeDistribution, normalized_obj, norm_loops.
  erewrite bind_run by by apply load_run.
  erewrite bind_run by reflexivity.
  rewrite sum_weights_entries_in. unfold normalized.
  case_bool_decide as Ht.
  - erewrite bind_run by by apply load_run.
    erewrite bind_run by reflexivity.
    erewrite (scale_loop_run q (λ w, w / total (CoordDist o))) by done.
    rewrite (scale_entries (λ w, w / total (CoordDist o)))
      by apply entries_in_perm.
    by rewrite !advance_advance.
  - rewrite with_CoordDist_same, insert_id by done. reflexivity.
Qed.

(** ** Running Collapse *)

Lemma Collapse_loop_run (q : ptr) (r cumulative : Qc) (es : list (Coord * Qc))
    (o : QuantumObject) (e : Env) :
  heap e !! q = Some o →
  Collapse_loop q r cumulative es e
  = Some (tt, advance
      (<[q := match selected r cumulative es with
              | Some c => collapsed_at c o
              | None => o
              end]> (heap e)) 0 0 e).
Proof.
  intros Hq. revert cumulative.
  induction es as [|[coord prob] es IH]; intros cumulative; simpl.
  - by rewrite insert_id, advance_same.
  - case_bool_decide; [|apply IH].
    erewrite bind_run by by apply modify_run.
    erewrite modify_run by (simpl; apply lookup_insert_eq).
    simpl. by rewrite advance_advance, insert_insert_eq.
Qed.

Lemma Collapse_run_collapsed (q : ptr) (o : QuantumObject) (e : Env) :
  heap e !! q = Some o → IsCollapsed o = true → Collapse q e = Some (tt, e).
Proof.
  intros Hq Hc. unfold Collapse.
  erewrite bind_run by by apply load_run. by rewrite Hc.
Qed.

Lemma Collapse_run_uncollapsed (q : ptr) (o : QuantumObject) (e : Env) :
  heap e !! q = Some o → IsCollapsed o = false →
  Collapse q e
  = Some (tt, advance (<[q := Collapse_obj e o]> (heap e))
                (norm_loops (CoordDist o) + 1) 1 e).
Proof.
  intros Hq Hc. unfold Collapse, Collapse_obj, Collapse_entries.
  erewrite bind_run by by apply load_run. rewrite Hc.
  erewrite bind_run by by apply NormalizeDistribution_run.
  erewrite bind_run by reflexivity.
  erewrite bind_run by (apply load_run; simpl; apply lookup_insert_eq).
  erewrite bind_run by reflexivity.
  erewrite Collapse_loop_run by (simpl; apply lookup_insert_eq).
  simpl. rewrite !advance_advance, insert_insert_eq. simpl.
  by rewrite !Nat.add_0_r.
Qed.

(** [Collapse] on an allocated object never panics, and changes nothing but
    that object. *)
Lemma Collapse_run (q : ptr) (o : QuantumObject) (e : Env) :
  heap e !! q = Some o →
  ∃ k n, Collapse q e = Some (tt, advance (<[q := Collapse_obj e o]> (heap e)) k n e).
Proof.
  intros Hq. destruct (IsCollapsed o) eqn:Hc.
  - exists 0%nat, 0%nat. rewrite (Collapse_run_collapsed q o e Hq Hc).
    unfold Collapse_obj. by rewrite Hc, insert_id, advance_same.
  - eexists _, _. by apply Collapse_run_uncollapsed.
Qed.

(** ** Running the nested loops of MeasureInteraction *)

Lemma both_collapsed_run (obj1 obj2 : ptr) (o1 o2 : QuantumObject) (e : Env) :
  heap e !! obj1 = Some o1 → heap e !! obj2 = Some o2 →
  both_collapsed obj1 obj2 e = Some (IsCollapsed o1 && IsCollapsed o2, e).
Proof.
  intros H1 H2. unfold both_collapsed.
  erewrite bind_run by by apply load_run.
  destruct (IsCollapsed o1); [|done].
  by erewrite bind_run by by apply load_run.
Qed.


Lemma combine_inner_miss (c1 : Coord) (p1 : Qc) (es2 : list (Coord * Qc))
    (acc : Dist * Dist) :
  c1 ∉ es2.*1 → combine_inner c1 p1 es2 acc = acc.
Proof.
  revert acc. induction es2 as [|[c2 p2] es2 IH]; intros acc Hc; [done|].
  rewrite fmap_cons, not_elem_of_cons in Hc. destruct Hc as [Hne Hc].
  unfold combine_inner in *. simpl. unfold combine_step at 2.
  rewrite (bool_decide_eq_false_2 (c1 = c2)) by done. simpl. by apply IH.
Qed.

Lemma combine_inner_hit (c1 : Coord) (p1 p2 : Qc) (es2 : list (Coord * Qc))
    (acc : Dist * Dist) :
  NoDup es2.*1 → (c1, p2) ∈ es2 →
  combine_inner c1 p1 es2 acc = combine_step c1 p1 c1 p2 acc.
Proof.
  revert acc. induction es2 as [|[c2 p2'] es2 IH]; intros acc Hnd Hin.
  { by apply elem_of_nil in Hin. }
  rewrite fmap_cons in Hnd. apply NoDup_cons in Hnd as [Hc2 Hnd].
  apply elem_of_cons in Hin as [[= <- <-]|Hin].
  - unfold combine_inner. simpl. by apply combine_inner_miss.
  - assert (c1 ≠ c2) as Hne.
    { intros <-. apply Hc2, list_elem_of_fmap. by exists (c1, p2). }
    unfold combine_inner in *. simpl. unfold combine_step at 2.
    rewrite (bool_decide_eq_false_2 (c1 = c2)) by done. simpl. by apply IH.
Qed.

(** One turn of the outer loop, whatever the order of the inner one: only
    the entry of [m2] at the same coordinate matters. *)
Lemma combine_inner_entries (c1 : Coord) (p1 : Qc) (ord : list Coord) (m2 : Dist)
    (acc : Dist * Dist) :
  combine_inner c1 p1 (entries_in ord m2) acc
  = match m2 !! c1 with
    | Some p2 => combine_step c1 p1 c1 p2 acc
    | None => acc
    end.
Proof.
  destruct (m2 !! c1) as [p2|] eqn:Hc.
  - apply combine_inner_hit; [apply NoDup_entries_in|].
    by apply elem_of_entries_in.
  - by apply combine_inner_miss, not_elem_of_entries_in.
Qed.

Lemma combine_step_overlap (c : Coord) (p1 p2 : Qc) (n : Dist) :
  n !! c = None →
  combine_step c p1 c p2 (n, n)
  = if bool_decide (0 < p1) && bool_decide (0 < p2)
    then (<[c := p1 * p2]> n, <[c := p1 * p2]> n) else (n, n).
Proof.
  intros Hn. unfold combine_step, accumulate. simpl.
  rewrite (bool_decide_eq_true_2 (c = c)) by done. simpl.
  do 2 (case_bool_decide; simpl; [|done]).
  rewrite bool_decide_eq_true_2 by by apply Qcmult_pos_pos.
  rewrite Hn. simpl. by replace (0 + p1 * p2) with (p1 * p2) by ring.
Qed.

Lemma combine_outer_run (obj2 : ptr) (o2 : QuantumObject)
    (es1 : list (Coord * Qc)) (acc : Dist * Dist) (e : Env) :
  heap e !! obj2 = Some o2 →
  combine_outer obj2 es1 acc e
  = Some (foldl (λ acc x,
                   match CoordDist o2 !! x.1 with
                   | Some p2 => combine_step x.1 x.2 x.1 p2 acc
                   | None => acc
                   end) acc es1,
          advance (heap e) (length es1) 0 e).
Proof.
  intros H2. revert acc e H2.
  induction es1 as [|[c1 p1] es1 IH]; intros acc e H2; simpl.
  - by rewrite advance_same.
  - erewrite bind_run by by apply load_run.
    erewrite bind_run by reflexivity.
    rewrite IH by done. rewrite combine_inner_entries.
    simpl. by rewrite advance_advance.
Qed.

(** The outer loop over a duplicate-free enumeration builds the overlap of
    the enumerated entries with [m2], twice. *)
Lemma combine_fold_overlap (m2 : Dist) (es1 : list (Coord * Qc)) :
  NoDup es1.*1 →
  foldl (λ acc x,
           match m2 !! x.1 with
           | Some p2 => combine_step x.1 x.2 x.1 p2 acc
           | None => acc
           end) (∅, ∅) es1
  = (overlap (list_to_map es1) m2, overlap (list_to_map es1) m2).
Proof.
  induction es1 as [|[c1 p1] es1 IH] using rev_ind; intros Hnd.
  { simpl. unfold overlap. f_equal; apply map_eq; intros c;
      by rewrite lookup_intersection_with, !lookup_empty. }
  rewrite fmap_app in Hnd. apply NoDup_app in Hnd as (Hnd & Hc1 & _).
  assert (c1 ∉ es1.*1) as Hfresh.
  { intros Hin. apply (Hc1 _ Hin). simpl. left. }
  rewrite foldl_app, IH by done. simpl.
  assert (overlap (list_to_map es1) m2 !! c1 = None) as Hnone.
  { unfold overlap. rewrite lookup_intersection_with.
    by rewrite (not_elem_of_list_to_map_1 _ _ Hfresh). }
  rewrite list_to_map_snoc by done.
  assert (∀ c, overlap (<[c1 := p1]> (list_to_map es1)) m2 !! c
    = if decide (c1 = c)
      then (p2 ← m2 !! c1;
            if bool_decide (0 < p1) && bool_decide (0 < p2)
            then Some (p1 * p2) else None)
      else overlap (list_to_map es1) m2 !! c) as Hlk.
  { intros c. unfold overlap. rewrite !lookup_intersection_with.
    case_decide as Hc.
    - subst c. rewrite lookup_insert_eq. by destruct (m2 !! c1).
    - by rewrite lookup_insert_ne. }
  destruct (m2 !! c1) as [p2|] eqn:H2; simpl in Hlk.
  - rewrite combine_step_overlap by done.
    destruct (bool_decide (0 < p1) && bool_decide (0 < p2)) eqn:Hpos.
    + f_equal; apply map_eq; intros c; rewrite Hlk;
        (destruct (decide (c1 = c)) as [<-|Hne];
         [by rewrite lookup_insert_eq|by rewrite lookup_insert_ne]).
    + f_equal; apply map_eq; intros c; rewrite Hlk;
        (destruct (decide (c1 = c)) as [<-|Hne]; [by rewrite Hnone|done]).
  - f_equal; apply map_eq; intros c; rewrite Hlk;
      (destruct (decide (c1 = c)) as [<-|Hne]; [by rewrite Hnone|done]).
Qed.

(** The two maps the nested loops build are one and the same map: the
    overlap of the two distributions.  This holds for every schedule and
    also when the two pointers alias. *)
Lemma combine_run (obj1 obj2 : ptr) (o1 o2 : QuantumObject) (e : Env) :
  heap e !! obj1 = Some o1 → heap e !! obj2 = Some o2 →
  combine obj1 obj2 e
  = Some ((overlap (CoordDist o1) (CoordDist o2),
           overlap (CoordDist o1) (CoordDist o2)),
          advance (heap e) (1 + size (CoordDist o1)) 0 e).
Proof.
  intros H1 H2. unfold combine.
  erewrite bind_run by by apply load_run.
  erewrite bind_run by reflexivity.
  erewrite combine_outer_run by done.
  rewrite combine_fold_overlap by apply NoDup_entries_in.
  assert (list_to_map (entries_in (sched e (nrange e)) (CoordDist o1))
          = CoordDist o1) as ->.
  { rewrite <- (list_to_map_to_list (CoordDist o1)) at 2.
    apply list_to_map_proper; [apply NoDup_entries_in|apply entries_in_perm]. }
  rewrite advance_advance. simpl.
  by rewrite entries_in_perm, length_map_to_list.
Qed.

(** * The claims of the specification *)

(** ** Normalization *)





(** ** The overlap of two distributions *)

Lemma lookup_overlap (m1 m2 : Dist) (c : Coord) :
  overlap m1 m2 !! c
  = match m1 !! c, m2 !! c with
    | Some p1, Some p2 =>
        if bool_decide (0 < p1) && bool_decide (0 < p2) then Some (p1 * p2) else None
    | _, _ => None
    end.
Proof.
  unfold overlap. rewrite lookup_intersection_with.
  by destruct (m1 !! c), (m2 !! c).
Qed.







(** ** The selection loop of Collapse *)

Lemma cumulative_at_0 (x : Coord * Qc) (es : list (Coord * Qc)) :
  cumulative_at (x :: es) 0 = x.2.
Proof. unfold cumulative_at, sum_weights. simpl. ring. Qed.

Lemma cumulative_at_S (x : Coord * Qc) (es : list (Coord * Qc)) (j : nat) :
  cumulative_at (x :: es) (S j) = x.2 + cumulative_at es j.
Proof. unfold cumulative_at. by rewrite firstn_cons, sum_weights_cons. Qed.


(** It selects nothing when no running sum reaches [r]. *)
Lemma selected_none (r cumulative : Qc) (es : list (Coord * Qc)) :
  (∀ j, (j < length es)%nat → cumulative + cumulative_at es j < r) →
  selected r cumulative es = None.
Proof.
  revert cumulative. induction es as [|[c0 p0] es IH]; intros cumulative Hlt; [done|].
  simpl. assert (cumulative + p0 < r) as H0.
  { specialize (Hlt 0%nat ltac:(simpl; lia)). by rewrite cumulative_at_0 in Hlt. }
  rewrite bool_decide_eq_false_2 by by apply Qclt_not_le.
  apply IH. intros j Hj. specialize (Hlt (S j) ltac:(simpl; lia)).
  rewrite cumulative_at_S in Hlt. simpl in Hlt.
  by replace (cumulative + p0 + cumulative_at es j)
    with (cumulative + (p0 + cumulative_at es j)) by ring.
Qed.

(** What it selects is the coordinate of one of the entries it walked. *)
Lemma selected_elem (r cumulative : Qc) (es : list (Coord * Qc)) (c : Coord) :
  selected r cumulative es = Some c → c ∈ es.*1.
Proof.
  revert cumulative. induction es as [|[c0 p0] es IH]; intros cumulative; [done|].
  simpl. case_bool_decide.
  - intros [= ->]. left.
  - intros Hs. right. by eapply IH.
Qed.

Lemma Qcplus_0_l' (x : Qc) : 0 + x = x.
Proof. ring. Qed.



(** The example of C4 depends on the enumeration: were (1,0) enumerated
    first, which Go allows, a draw of 0.2 would select (1,0). *)
Remark Collapse_depends_on_enumeration :
  ∃ e' o',
    Collapse 1%nat (env_73 (frac 2 10)) = Some (tt, e') ∧
    heap e' !! 1%nat = Some o' ∧
    IsCollapsed o' = true ∧ FinalCoord o' = (1, 0)%Z.
Proof.
  eexists _, _. split; [vm_compute; reflexivity|].
  split; [vm_compute; reflexivity|]. done.
Qed.

(** C10. Whenever Collapse takes an object from uncollapsed to collapsed,
    the final coordinate it assigns is a key of the object's distribution at
    the time of the draw (the normalized distribution the object then
    holds), which has the keys the distribution had before the call. *)
Theorem C10_final_coordinate_is_a_key (e : Env) (q : ptr) (o : QuantumObject) :
  heap e !! q = Some o → IsCollapsed o = false →
  ∃ e' o',
    Collapse q e = Some (tt, e') ∧ heap e' !! q = Some o' ∧
    (IsCollapsed o' = true →
       FinalCoord o' ∈ dom (CoordDist o') ∧ FinalCoord o' ∈ dom (CoordDist o)).
Proof.
  intros Hq Hc. eexists _, (Collapse_obj e o).
  split; [by apply Collapse_run_uncollapsed|].
  split; [simpl; apply lookup_insert_eq|].
  unfold Collapse_obj. rewrite Hc.
  destruct (selected _ _ _) as [c|] eqn:Hsel; simpl; [|by rewrite Hc].
  intros _. apply selected_elem in Hsel.
  apply list_elem_of_fmap in Hsel as ([c' w] & -> & Hin).
  apply elem_of_entries_in in Hin. simpl.
  assert (c' ∈ dom (normalized (CoordDist o))) as Hdom by by apply elem_of_dom.
  split; [done|]. by rewrite dom_normalized in Hdom.
Qed.

Lemma C10_final_coordinate_is_a_key_witness :
  heap (env_37 (frac 1 2)) !! 1%nat = Some obj_37 ∧
  IsCollapsed obj_37 = false ∧
  ∃ e' o',
    Collapse 1%nat (env_37 (frac 1 2)) = Some (tt, e') ∧
    heap e' !! 1%nat = Some o' ∧
    (IsCollapsed o' = true →
       FinalCoord o' ∈ dom (CoordDist o') ∧ FinalCoord o' ∈ dom (CoordDist obj_37)).
Proof.
  split; [reflexivity|]. split; [reflexivity|].
  apply (C10_final_coordinate_is_a_key (env_37 (frac 1 2)) 1%nat obj_37);
    reflexivity.
Defined.

(** ** Degenerate distributions *)

(** C3, as stated, fails at the draw 0, which [rand.Float64()] can return:
    on the distribution {(0,0): 0}, whose weights are all zero, the test
    [r <= cumulative] is [0 <= 0] at the first entry, and Collapse marks
    the object collapsed at (0,0). *)
Lemma C3_counterexample :
  (∀ c w, CoordDist obj_zero !! c = Some w → w = 0) ∧
  IsCollapsed obj_zero = false ∧
  heap (env_zero 0) !! 1%nat = Some obj_zero ∧
  (0 ≤ rng (env_zero 0) (nrand (env_zero 0)) ∧
   rng (env_zero 0) (nrand (env_zero 0)) < 1) ∧
  ∃ e' o',
    Collapse 1%nat (env_zero 0) = Some (tt, e') ∧
    heap e' !! 1%nat = Some o' ∧
    IsCollapsed o' = true ∧ FinalCoord o' = (0, 0)%Z.
Proof.
  split.
  { intros c w Hc. unfold obj_zero in Hc. simpl in Hc.
    apply lookup_singleton_Some in Hc as [_ <-]. by apply Qc_is_canon. }
  split; [reflexivity|]. split; [reflexivity|]. split; [by split|].
  eexists _, _. split; [vm_compute; reflexivity|].
  split; [vm_compute; reflexivity|]. done.
Qed.

(** C3, amended.  For every object whose distribution is empty, and every
    draw, and for every object whose weights are all equal to zero, and
    every draw [r > 0] (so every draw of the open interval (0,1)), Collapse
    does not panic and leaves the object as it was: not collapsed if it was
    not, no final coordinate assigned, the distribution untouched.  The
    rest of the store is unchanged too. *)
Theorem C3_zero_distribution_stays_uncollapsed (e : Env) (q : ptr) (o : QuantumObject) :
  heap e !! q = Some o →
  (∀ c w, CoordDist o !! c = Some w → w = 0) →
  CoordDist o = ∅ ∨ 0 < rng e (nrand e) →
  ∃ e', Collapse q e = Some (tt, e') ∧ heap e' = heap e ∧ heap e' !! q = Some o.
Proof.
  intros Hq Hz Hr.
  destruct (IsCollapsed o) eqn:Hc.
  { exists e. by rewrite (Collapse_run_collapsed q o e Hq Hc). }
  assert (total (CoordDist o) = 0) as Ht by by apply total_all_zero.
  assert (normalized (CoordDist o) = CoordDist o) as Hn.
  { apply normalized_not_pos. rewrite Ht. intros H. by apply Qclt_not_eq in H. }
  assert (selected (rng e (nrand e)) 0 (Collapse_entries e (CoordDist o)) = None)
    as Hsel.
  { destruct Hr as [Hempty|Hr].
    { unfold Collapse_entries. by rewrite Hn, Hempty, entries_in_empty. }
    apply selected_none. intros j _. rewrite Qcplus_0_l'.
    unfold cumulative_at. rewrite sum_weights_zero; [done|].
    apply Forall_take, Forall_forall. intros [c w] Hin. simpl.
    apply elem_of_entries_in in Hin. rewrite Hn in Hin. eauto. }
  eexists. split; [by apply Collapse_run_uncollapsed|].
  unfold Collapse_obj, normalized_obj. rewrite Hc, Hsel, Hn, with_CoordDist_same.
  simpl. by rewrite insert_id.
Qed.

Lemma obj_zero_all_zero (c : Coord) (w : Qc) :
  CoordDist obj_zero !! c = Some w → w = 0.
Proof.
  intros Hc. unfold obj_zero in Hc. simpl in Hc.
  apply lookup_singleton_Some in Hc as [_ <-]. by apply Qc_is_canon.
Qed.

Lemma C3_zero_distribution_stays_uncollapsed_witness :
  heap (env_zero (frac 1 2)) !! 1%nat = Some obj_zero ∧
  (∀ c w, CoordDist obj_zero !! c = Some w → w = 0) ∧
  0 < rng (env_zero (frac 1 2)) (nrand (env_zero (frac 1 2))) ∧
  ∃ e', Collapse 1%nat (env_zero (frac 1 2)) = Some (tt, e') ∧
        heap e' = heap (env_zero (frac 1 2)) ∧
        heap e' !! 1%nat = Some obj_zero.
Proof.
  split; [reflexivity|]. split; [exact obj_zero_all_zero|]. split; [reflexivity|].
  apply (C3_zero_distribution_stays_uncollapsed (env_zero (frac 1 2)) 1%nat obj_zero).
  - reflexivity.
  - exact obj_zero_all_zero.
  - right. reflexivity.
Defined.

(** ** Resolution is never undone *)

Lemma resolution_kept_refl (h : gmap ptr QuantumObject) : resolution_kept h h.
Proof. intros p o Hp Hc. by exists o. Qed.

Lemma resolution_kept_trans (h1 h2 h3 : gmap ptr QuantumObject) :
  resolution_kept h1 h2 → resolution_kept h2 h3 → resolution_kept h1 h3.
Proof.
  intros H12 H23 p o Hp Hc.
  destruct (H12 p o Hp Hc) as (o2 & Hp2 & Hc2 & Hf2).
  destruct (H23 p o2 Hp2 Hc2) as (o3 & Hp3 & Hc3 & Hf3).
  exists o3. by rewrite Hf3.
Qed.

(** Replacing an object by one that keeps its resolution, if it had one. *)
Lemma resolution_kept_insert (h : gmap ptr QuantumObject) (q : ptr) (o o' : QuantumObject) :
  h !! q = Some o →
  (IsCollapsed o = true → IsCollapsed o' = true ∧ FinalCoord o' = FinalCoord o) →
  resolution_kept h (<[q := o']> h) ∧ dom (<[q := o']> h) = dom h.
Proof.
  intros Hq Hkeep. split.
  - intros p x Hp Hc. destruct (decide (q = p)) as [<-|Hne].
    + exists o'. rewrite lookup_insert_eq. rewrite Hq in Hp.
      injection Hp as ->. destruct (Hkeep Hc) as [? ?]. done.
    + exists x. by rewrite lookup_insert_ne.
  - rewrite dom_insert_L. apply subseteq_union_1_L, singleton_subseteq_l.
    by eapply elem_of_dom_2.
Qed.

Lemma NormalizeDistribution_kept (q : ptr) (e : Env) :
  q ∈ dom (heap e) →
  ∃ e', NormalizeDistribution q e = Some (tt, e') ∧
        resolution_kept (heap e) (heap e') ∧ dom (heap e') = dom (heap e).
Proof.
  intros [o Hq]%elem_of_dom. eexists.
  split; [by apply NormalizeDistribution_run|]. simpl.
  by apply (resolution_kept_insert _ _ o).
Qed.

Lemma install_kept (q : ptr) (d : Dist) (e : Env) :
  q ∈ dom (heap e) →
  ∃ e', modify q (with_CoordDist d) e = Some (tt, e') ∧
        resolution_kept (heap e) (heap e') ∧ dom (heap e') = dom (heap e).
Proof.
  intros [o Hq]%elem_of_dom. eexists.
  split; [by apply modify_run|]. simpl.
  by apply (resolution_kept_insert _ _ o).
Qed.

Lemma combine_kept (obj1 obj2 : ptr) (e : Env) :
  obj1 ∈ dom (heap e) → obj2 ∈ dom (heap e) →
  ∃ r e', combine obj1 obj2 e = Some (r, e') ∧ heap e' = heap e.
Proof.
  intros [o1 H1]%elem_of_dom [o2 H2]%elem_of_dom. eexists _, _.
  split; [by apply combine_run|]. done.
Qed.

Lemma Collapse_obj_keeps (e : Env) (o : QuantumObject) :
  IsCollapsed o = true →
  IsCollapsed (Collapse_obj e o) = true ∧ FinalCoord (Collapse_obj e o) = FinalCoord o.
Proof. intros Hc. unfold Collapse_obj. by rewrite Hc. Qed.

Lemma Collapse_kept (q : ptr) (e : Env) :
  q ∈ dom (heap e) →
  ∃ e', Collapse q e = Some (tt, e') ∧
        resolution_kept (heap e) (heap e') ∧ dom (heap e') = dom (heap e).
Proof.
  intros [o Hq]%elem_of_dom.
  destruct (Collapse_run q o e Hq) as (k & n & Hrun).
  eexists. split; [exact Hrun|]. simpl.
  apply (resolution_kept_insert _ _ o); [done|]. apply Collapse_obj_keeps.
Qed.

Lemma CollapseAll_kept (l : list ptr) (e : Env) :
  Forall (λ p, p ∈ dom (heap e)) l →
  ∃ e', for_each l Collapse e = Some (tt, e') ∧
        resolution_kept (heap e) (heap e') ∧ dom (heap e') = dom (heap e).
Proof.
  revert e. induction l as [|p l IH]; intros e Hl; simpl.
  - exists e. split; [done|]. split; [apply resolution_kept_refl|done].
  - apply Forall_cons in Hl as [Hp Hl].
    destruct (Collapse_kept p e Hp) as (e1 & Hrun & Hk1 & Hd1).
    destruct (IH e1) as (e2 & Hrun2 & Hk2 & Hd2).
    { by rewrite Hd1. }
    exists e2. erewrite bind_run by exact Hrun.
    split; [done|]. split; [by eapply resolution_kept_trans|congruence].
Qed.

Lemma MeasureInteraction_kept (obj1 obj2 : ptr) (e : Env) :
  obj1 ∈ dom (heap e) → obj2 ∈ dom (heap e) →
  ∃ e', MeasureInteraction obj1 obj2 e = Some (tt, e') ∧
        resolution_kept (heap e) (heap e') ∧ dom (heap e') = dom (heap e).
Proof.
  intros Hd1 Hd2.
  destruct (proj1 (elem_of_dom _ _) Hd1) as [o1 H1].
  destruct (proj1 (elem_of_dom _ _) Hd2) as [o2 H2].
  unfold MeasureInteraction.
  erewrite bind_run by by apply both_collapsed_run.
  destruct (IsCollapsed o1 && IsCollapsed o2).
  { exists e. split; [done|]. split; [apply resolution_kept_refl|done]. }
  destruct (NormalizeDistribution_kept obj1 e Hd1) as (e1 & R1 & K1 & D1).
  erewrite bind_run by exact R1.
  destruct (NormalizeDistribution_kept obj2 e1) as (e2 & R2 & K2 & D2);
    [by rewrite D1|].
  erewrite bind_run by exact R2.
  destruct (combine_kept obj1 obj2 e2) as ([n1 n2] & e3 & R3 & D3);
    [by rewrite D2, D1|by rewrite D2, D1|].
  erewrite bind_run by exact R3.
  assert (resolution_kept (heap e) (heap e3) ∧ dom (heap e3) = dom (heap e))
    as [K3 D3'].
  { rewrite D3. split; [by eapply resolution_kept_trans|congruence]. }
  destruct (bool_decide (size n1 = 0%nat) || bool_decide (size n2 = 0%nat)).
  { by exists e3. }
  destruct (install_kept obj1 n1 e3) as (e4 & R4 & K4 & D4); [by rewrite D3'|].
  erewrite bind_run by exact R4.
  destruct (install_kept obj2 n2 e4) as (e5 & R5 & K5 & D5);
    [by rewrite D4, D3'|].
  erewrite bind_run by exact R5.
  destruct (Collapse_kept obj1 e5) as (e6 & R6 & K6 & D6);
    [by rewrite D5, D4, D3'|].
  erewrite bind_run by exact R6.
  destruct (Collapse_kept obj2 e6) as (e7 & R7 & K7 & D7);
    [by rewrite D6, D5, D4, D3'|].
  exists e7. split; [exact R7|]. split; [|congruence].
  eapply resolution_kept_trans; [exact K3|].
  eapply resolution_kept_trans; [exact K4|].
  eapply resolution_kept_trans; [exact K5|].
  eapply resolution_kept_trans; [exact K6|exact K7].
Qed.

(** C7. Resolution is irreversible.  On an object that is already
    collapsed, Collapse is a no-op whatever the draws are (it changes
    nothing, and does not even draw); and neither Collapse, nor
    MeasureInteraction, nor CollapseAll ever clears the collapsed flag of
    any object of the store or changes its final coordinate once it is
    set.  None of them panics on allocated objects. *)
Theorem C7_resolution_is_irreversible (e : Env) (a b : ptr) (oa : QuantumObject)
    (w : World) :
  heap e !! a = Some oa →
  b ∈ dom (heap e) →
  Forall (λ p, p ∈ dom (heap e)) (Objects w) →
  (IsCollapsed oa = true → Collapse a e = Some (tt, e)) ∧
  (∃ e', Collapse a e = Some (tt, e') ∧ resolution_kept (heap e) (heap e')) ∧
  (∃ e', MeasureInteraction a b e = Some (tt, e') ∧
         resolution_kept (heap e) (heap e')) ∧
  (∃ e', CollapseAll w e = Some (tt, e') ∧ resolution_kept (heap e) (heap e')).
Proof.
  intros Ha Hb Hw. pose proof (elem_of_dom_2 _ _ _ Ha) as Hda.
  split; [by apply Collapse_run_collapsed|].
  split; [destruct (Collapse_kept a e Hda) as (e' & ? & ? & _); by exists e'|].
  split.
  - destruct (MeasureInteraction_kept a b e Hda Hb) as (e' & ? & ? & _).
    by exists e'.
  - destruct (CollapseAll_kept (Objects w) e Hw) as (e' & ? & ? & _).
    by exists e'.
Qed.

Lemma C7_resolution_is_irreversible_witness :
  heap (env_done [frac 3 4]) !! 1%nat = Some obj_A_done ∧
  (IsCollapsed obj_A_done = true →
   Collapse 1%nat (env_done [frac 3 4]) = Some (tt, env_done [frac 3 4])) ∧
  (∃ e', Collapse 1%nat (env_done [frac 3 4]) = Some (tt, e') ∧
         resolution_kept (heap (env_done [frac 3 4])) (heap e')) ∧
  (∃ e', MeasureInteraction 1%nat 2%nat (env_done [frac 3 4]) = Some (tt, e') ∧
         resolution_kept (heap (env_done [frac 3 4])) (heap e')) ∧
  (∃ e', CollapseAll world_12 (env_done [frac 3 4]) = Some (tt, e') ∧
         resolution_kept (heap (env_done [frac 3 4])) (heap e')).
Proof.
  split; [reflexivity|].
  apply (C7_resolution_is_irreversible (env_done [frac 3 4]) 1%nat 2%nat
           obj_A_done world_12).
  - reflexivity.
  - apply elem_of_dom. by exists obj_B.
  - repeat constructor; apply elem_of_dom; eexists; reflexivity.
Defined.

(** ** MeasureInteraction: the two normalizations and the overlap *)

Lemma normalized_obj_idemp (o : QuantumObject) :
  normalized_obj (normalized_obj o) = normalized_obj o.
Proof. unfold normalized_obj, with_CoordDist. simpl. by rewrite normalized_idemp. Qed.

(** Normalizing does not change which coordinates are positive in both. *)
Lemma overlap_normalized_empty (m1 m2 : Dist) :
  (∀ c p1 p2, m1 !! c = Some p1 → m2 !! c = Some p2 → ¬ (0 < p1 ∧ 0 < p2)) →
  overlap (normalized m1) (normalized m2) = ∅.
Proof.
  intros Hno. apply map_eq. intros c. rewrite lookup_empty, lookup_overlap.
  destruct (normalized m1 !! c) as [q1|] eqn:H1; [|done].
  destruct (normalized m2 !! c) as [q2|] eqn:H2; [|done].
  case_bool_decide as Hq1; [|done]. case_bool_decide as Hq2; [|done].
  destruct (proj1 (normalized_positive m1 c)) as (p1 & Hp1 & Hpos1); [by exists q1|].
  destruct (proj1 (normalized_positive m2 c)) as (p2 & Hp2 & Hpos2); [by exists q2|].
  by destruct (Hno c p1 p2 Hp1 Hp2).
Qed.

(** The store after the two normalizations of MeasureInteraction, also when
    the two pointers alias. *)
Lemma normalize_both_run (a b : ptr) (oa ob : QuantumObject) (e : Env) :
  heap e !! a = Some oa → heap e !! b = Some ob →
  ∃ k, (NormalizeDistribution a ;; NormalizeDistribution b) e
       = Some (tt, advance (<[b := normalized_obj ob]>
                              (<[a := normalized_obj oa]> (heap e))) k 0 e).
Proof.
  intros Ha Hb. destruct (decide (a = b)) as [<-|Hne].
  - assert (ob = oa) as -> by congruence. eexists.
    erewrite bind_run by by apply NormalizeDistribution_run.
    erewrite NormalizeDistribution_run by (simpl; apply lookup_insert_eq).
    simpl. by rewrite advance_advance, normalized_obj_idemp.
  - eexists.
    erewrite bind_run by by apply NormalizeDistribution_run.
    erewrite NormalizeDistribution_run by (simpl; by rewrite lookup_insert_ne).
    simpl. by rewrite advance_advance.
Qed.

(** The first object after both normalizations, also under aliasing. *)
Lemma lookup_normalized_both_l (a b : ptr) (oa ob : QuantumObject) (e : Env) (k : nat) :
  heap e !! a = Some oa → heap e !! b = Some ob →
  heap (advance (<[b := normalized_obj ob]> (<[a := normalized_obj oa]> (heap e)))
          k 0 e) !! a
  = Some (normalized_obj oa).
Proof.
  intros Ha Hb. simpl. destruct (decide (a = b)) as [<-|Hne].
  - rewrite lookup_insert_eq. congruence.
  - rewrite lookup_insert_ne by done. apply lookup_insert_eq.
Qed.

(** C9. Whenever MeasureInteraction reaches the point of replacing the two
    distributions (the objects are not both collapsed and the overlap is not
    empty), the two maps it installs are equal as mappings: the nested loops
    (lines 102-118) return one map twice, with the same coordinates and the
    same weight at every coordinate, and it is this map that lines 127-128
    put in both objects before the two calls of Collapse.  This holds in
    every environment, for every schedule, also when the two pointers
    alias. *)
Theorem C9_replacements_equal (e : Env) (obj1 obj2 : ptr) (o1 o2 : QuantumObject) :
  heap e !! obj1 = Some o1 → heap e !! obj2 = Some o2 →
  (∃ e' newDist1 newDist2,
     combine obj1 obj2 e = Some ((newDist1, newDist2), e') ∧
     newDist1 = newDist2 ∧
     dom newDist1 = dom newDist2 ∧
     (∀ c, newDist1 !! c = newDist2 !! c)) ∧
  (IsCollapsed o1 && IsCollapsed o2 = false →
   ∃ e2 e3 newDist,
     (NormalizeDistribution obj1 ;; NormalizeDistribution obj2) e = Some (tt, e2) ∧
     combine obj1 obj2 e2 = Some ((newDist, newDist), e3) ∧
     (size newDist ≠ 0%nat →
      MeasureInteraction obj1 obj2 e
      = (modify obj1 (with_CoordDist newDist) ;;
         modify obj2 (with_CoordDist newDist) ;;
         Collapse obj1 ;; Collapse obj2) e3)).
Proof.
  intros H1 H2. split.
  { eexists _, _, _. split; [by apply combine_run|]. done. }
  intros Hnot.
  destruct (normalize_both_run obj1 obj2 o1 o2 e H1 H2) as [k Hk].
  eexists _, _, _. split; [exact Hk|].
  split.
  { apply (combine_run obj1 obj2 (normalized_obj o1) (normalized_obj o2)).
    - by apply lookup_normalized_both_l.
    - simpl. apply lookup_insert_eq. }
  intros Hsize. unfold MeasureInteraction.
  erewrite bind_run by by apply both_collapsed_run.
  rewrite Hnot.
  unfold mbind, M_bind in Hk |- *.
  destruct (NormalizeDistribution obj1 e) as [[[] e1]|]; [|done].
  rewrite Hk.
  erewrite (combine_run obj1 obj2 (normalized_obj o1) (normalized_obj o2)).
  - rewrite !bool_decide_eq_false_2 by done. reflexivity.
  - by apply lookup_normalized_both_l.
  - simpl. apply lookup_insert_eq.
Qed.

Lemma C9_replacements_equal_witness :
  heap env_AB !! 1%nat = Some obj_A ∧ heap env_AB !! 2%nat = Some obj_B ∧
  (∃ e' newDist1 newDist2,
     combine 1%nat 2%nat env_AB = Some ((newDist1, newDist2), e') ∧
     newDist1 = newDist2 ∧
     dom newDist1 = dom newDist2 ∧
     (∀ c, newDist1 !! c = newDist2 !! c)) ∧
  (IsCollapsed obj_A && IsCollapsed obj_B = false →
   ∃ e2 e3 newDist,
     (NormalizeDistribution 1%nat ;; NormalizeDistribution 2%nat) env_AB
       = Some (tt, e2) ∧
     combine 1%nat 2%nat e2 = Some ((newDist, newDist), e3) ∧
     (size newDist ≠ 0%nat →
      MeasureInteraction 1%nat 2%nat env_AB
      = (modify 1%nat (with_CoordDist newDist) ;;
         modify 2%nat (with_CoordDist newDist) ;;
         Collapse 1%nat ;; Collapse 2%nat) e3)).
Proof.
  split; [reflexivity|]. split; [reflexivity|].
  apply (C9_replacements_equal env_AB 1%nat 2%nat obj_A obj_B); reflexivity.
Defined.

(** C2, as stated, fails: MeasureInteraction normalizes both distributions
    in place (lines 99-100) before it looks for an overlap.  On {(0,0): 2}
    and {(1,1): 4}, which share no coordinate, the call returns with the
    weights 1 and 1 in the two objects. *)
Lemma C2_counterexample :
  heap env_24 !! 1%nat = Some obj_two ∧ heap env_24 !! 2%nat = Some obj_four ∧
  (∀ c p1 p2,
     CoordDist obj_two !! c = Some p1 → CoordDist obj_four !! c = Some p2 →
     ¬ (0 < p1 ∧ 0 < p2)) ∧
  ∃ e' a' b',
    MeasureInteraction 1%nat 2%nat env_24 = Some (tt, e') ∧
    heap e' !! 1%nat = Some a' ∧ heap e' !! 2%nat = Some b' ∧
    CoordDist obj_two !! (0, 0)%Z = Some (frac 2 1) ∧
    CoordDist a' !! (0, 0)%Z = Some (frac 1 1) ∧
    CoordDist obj_four !! (1, 1)%Z = Some (frac 4 1) ∧
    CoordDist b' !! (1, 1)%Z = Some (frac 1 1).
Proof.
  split; [reflexivity|]. split; [reflexivity|]. split.
  { intros c p1 p2 H1 H2. unfold obj_two, obj_four in *. simpl in *.
    apply lookup_singleton_Some in H1 as [<- _].
    by apply lookup_singleton_Some in H2 as [? _]. }
  eexists _, _, _. split; [vm_compute; reflexivity|].
  split; [vm_compute; reflexivity|]. split; [vm_compute; reflexivity|].
  repeat split; vm_compute; f_equal; by apply Qc_is_canon.
Qed.

(** C2, amended.  When no coordinate has a positive weight in both
    distributions, MeasureInteraction returns without panic and leaves every
    object its name, its collapsed flag and its final coordinate; the two
    distributions are left normalized: the same coordinates, each weight
    divided by the total of its distribution when that total is positive,
    and exactly as it was otherwise.  Nothing else in the store changes, and
    when both objects were already collapsed nothing changes at all. *)
Theorem C2_no_overlap_only_normalizes (e : Env) (a b : ptr) (oa ob : QuantumObject) :
  heap e !! a = Some oa → heap e !! b = Some ob →
  (∀ c p1 p2,
     CoordDist oa !! c = Some p1 → CoordDist ob !! c = Some p2 →
     ¬ (0 < p1 ∧ 0 < p2)) →
  ∃ e',
    MeasureInteraction a b e = Some (tt, e') ∧
    heap e' = (if IsCollapsed oa && IsCollapsed ob then heap e
               else <[b := with_CoordDist (normalized (CoordDist ob)) ob]>
                      (<[a := with_CoordDist (normalized (CoordDist oa)) oa]> (heap e))) ∧
    (∀ p o, heap e !! p = Some o →
       ∃ o', heap e' !! p = Some o' ∧
             Name o' = Name o ∧ IsCollapsed o' = IsCollapsed o ∧
             FinalCoord o' = FinalCoord o ∧
             (CoordDist o' = CoordDist o ∨ CoordDist o' = normalized (CoordDist o))).
Proof.
  intros Ha Hb Hno.
  assert (∃ e', MeasureInteraction a b e = Some (tt, e') ∧
    heap e' = (if IsCollapsed oa && IsCollapsed ob then heap e
               else <[b := normalized_obj ob]> (<[a := normalized_obj oa]> (heap e))))
    as (e' & Hrun & Hheap).
  { unfold MeasureInteraction.
    erewrite bind_run by by apply both_collapsed_run.
    destruct (IsCollapsed oa && IsCollapsed ob); [by exists e|].
    destruct (normalize_both_run a b oa ob e Ha Hb) as [k Hk].
    unfold mbind, M_bind in Hk |- *.
    destruct (NormalizeDistribution a e) as [[[] e1]|]; [|done].
    rewrite Hk.
    erewrite (combine_run a b (normalized_obj oa) (normalized_obj ob)).
    - simpl. rewrite overlap_normalized_empty by done.
      rewrite map_size_empty. simpl. by eexists.
    - by apply lookup_normalized_both_l.
    - simpl. apply lookup_insert_eq. }
  exists e'. split; [done|]. split; [done|].
  intros p o Hp. rewrite Hheap.
  destruct (IsCollapsed oa && IsCollapsed ob); [exists o; repeat split; auto|].
  destruct (decide (b = p)) as [<-|Hbp].
  { exists (normalized_obj ob). rewrite lookup_insert_eq.
    assert (o = ob) as -> by congruence. repeat split; auto. }
  rewrite lookup_insert_ne by done.
  destruct (decide (a = p)) as [<-|Hap].
  { exists (normalized_obj oa). rewrite lookup_insert_eq.
    assert (o = oa) as -> by congruence. repeat split; auto. }
  rewrite lookup_insert_ne by done. exists o. repeat split; auto.
Qed.

Lemma C2_no_overlap_only_normalizes_witness :
  heap env_24 !! 1%nat = Some obj_two ∧ heap env_24 !! 2%nat = Some obj_four ∧
  ∃ e',
    MeasureInteraction 1%nat 2%nat env_24 = Some (tt, e') ∧
    heap e' = (if IsCollapsed obj_two && IsCollapsed obj_four then heap env_24
               else <[2%nat := with_CoordDist (normalized (CoordDist obj_four)) obj_four]>
                      (<[1%nat := with_CoordDist (normalized (CoordDist obj_two)) obj_two]>
                         (heap env_24))) ∧
    (∀ p o, heap env_24 !! p = Some o →
       ∃ o', heap e' !! p = Some o' ∧
             Name o' = Name o ∧ IsCollapsed o' = IsCollapsed o ∧
             FinalCoord o' = FinalCoord o ∧
             (CoordDist o' = CoordDist o ∨ CoordDist o' = normalized (CoordDist o))).
Proof.
  split; [reflexivity|]. split; [reflexivity|].
  apply (C2_no_overlap_only_normalizes env_24 1%nat 2%nat obj_two obj_four).
  - reflexivity.
  - reflexivity.
  - intros c p1 p2 H1 H2. unfold obj_two, obj_four in *. simpl in *.
    apply lookup_singleton_Some in H1 as [<- _].
    by apply lookup_singleton_Some in H2 as [? _].
Defined.

(** ** MeasureInteraction with overlap *)

(** C1 does not hold of the code.  MeasureInteraction ends with two
    separate calls of Collapse, each with a draw of its own (lines
    131-132), and a Collapse on an object that is already collapsed does
    nothing; so the two objects need not end at one coordinate.

    First input: two uncollapsed objects with the weights
    {(0,0): 1, (1,1): 1} each, both enumerated from (0,0), and the draws
    0.25 and 0.75.  The overlap is {(0,0): 0.25, (1,1): 0.25}; the first
    object collapses at (0,0), the second at (1,1).

    Second input: the first object already collapsed at (0,0), with the
    weights {(0,0): 0.5, (1,1): 0.5}, the second uncollapsed with
    {(1,1): 1}.  The overlap is {(1,1): 0.5}; the first object stays at
    (0,0), the second collapses at (1,1). *)
Theorem C1_interaction_may_split :
  (IsCollapsed (obj_11 "a") = false ∧ IsCollapsed (obj_11 "b") = false ∧
   size (overlap (normalized (CoordDist (obj_11 "a")))
                 (normalized (CoordDist (obj_11 "b")))) = 2%nat ∧
   (0 ≤ rng env_split 0 ∧ rng env_split 0 < 1) ∧
   (0 ≤ rng env_split 1 ∧ rng env_split 1 < 1) ∧
   ∃ e' a' b',
     MeasureInteraction 1%nat 2%nat env_split = Some (tt, e') ∧
     heap e' !! 1%nat = Some a' ∧ heap e' !! 2%nat = Some b' ∧
     IsCollapsed a' = true ∧ IsCollapsed b' = true ∧
     FinalCoord a' = (0, 0)%Z ∧ FinalCoord b' = (1, 1)%Z) ∧
  (IsCollapsed obj_A_done = true ∧ IsCollapsed obj_B = false ∧
   size (overlap (normalized (CoordDist obj_A_done))
                 (normalized (CoordDist obj_B))) = 1%nat ∧
   (0 ≤ rng (env_done [frac 3 4]) 0 ∧ rng (env_done [frac 3 4]) 0 < 1) ∧
   ∃ e' a' b',
     MeasureInteraction 1%nat 2%nat (env_done [frac 3 4]) = Some (tt, e') ∧
     heap e' !! 1%nat = Some a' ∧ heap e' !! 2%nat = Some b' ∧
     IsCollapsed a' = true ∧ IsCollapsed b' = true ∧
     FinalCoord a' = (0, 0)%Z ∧ FinalCoord b' = (1, 1)%Z).
Proof.
  split.
  - split; [reflexivity|]. split; [reflexivity|]. split; [vm_compute; reflexivity|].
    split; [by split|]. split; [by split|].
    eexists _, _, _. split; [vm_compute; reflexivity|].
    split; [vm_compute; reflexivity|]. split; [vm_compute; reflexivity|]. done.
  - split; [reflexivity|]. split; [reflexivity|]. split; [vm_compute; reflexivity|].
    split; [by split|].
    eexists _, _, _. split; [vm_compute; reflexivity|].
    split; [vm_compute; reflexivity|]. split; [vm_compute; reflexivity|]. done.
Qed.




(** * Further properties of the code *)

(** ** Linear arithmetic on weights *)

Lemma Qc_this_plus (x y : Qc) : (this (x + y) == this x + this y)%Q.
Proof. unfold Qcplus. simpl. apply Qred_correct. Qed.

Ltac qc_lra :=
  unfold Qclt, Qcle in *;
  repeat match goal with
  | H : context [this (_ + _)] |- _ => rewrite Qc_this_plus in H
  | |- context [this (_ + _)] => rewrite Qc_this_plus
  end;
  change (this (Q2Qc 0)) with 0%Q in *;
  change (this (Q2Qc 1)) with 1%Q in *;
  lra.

(** ** Collapse as a weighted draw (main.go, lines 41-56) *)





(** For a draw above the running sum, the entry the loop stops at has a
    positive weight. *)
Lemma selected_positive (r cumulative : Qc) (es : list (Coord * Qc)) (c : Coord) :
  cumulative < r → selected r cumulative es = Some c →
  ∃ p, (c, p) ∈ es ∧ 0 < p.
Proof.
  revert cumulative. induction es as [|[c0 p0] es IH]; intros cumulative Hlt; [done|].
  simpl. case_bool_decide as Hp.
  - intros [= ->]. exists p0. split; [left|]. qc_lra.
  - intros Hs. destruct (IH (cumulative + p0)) as (p & Hin & Hpos); [|done|].
    + apply Qclt_nge in Hp. done.
    + exists p. split; [by right|done].
Qed.





(** X2. For a positive draw, Collapse never stops at a coordinate whose
    weight is zero or negative: whenever it takes an object from uncollapsed
    to collapsed with a draw [r > 0], the weight the distribution held at
    the final coordinate before the call was positive. *)
Theorem Collapse_selects_positive_weight (e : Env) (q : ptr) (o : QuantumObject) :
  heap e !! q = Some o → IsCollapsed o = false →
  0 < rng e (nrand e) →
  ∃ e' o',
    Collapse q e = Some (tt, e') ∧ heap e' !! q = Some o' ∧
    (IsCollapsed o' = true →
     ∃ w, CoordDist o !! FinalCoord o' = Some w ∧ 0 < w).
Proof.
  intros Hq Hc Hr. eexists _, (Collapse_obj e o).
  split; [by apply Collapse_run_uncollapsed|].
  split; [simpl; apply lookup_insert_eq|].
  unfold Collapse_obj. rewrite Hc.
  destruct (selected _ _ _) as [c|] eqn:Hsel; simpl; [|by rewrite Hc].
  intros _. apply selected_positive in Hsel as (p & Hin & Hp); [|done].
  apply elem_of_entries_in in Hin.
  apply (normalized_positive (CoordDist o) c). by exists p.
Qed.

Lemma Collapse_selects_positive_weight_witness :
  heap (env_37 (frac 1 2)) !! 1%nat = Some obj_37 ∧
  IsCollapsed obj_37 = false ∧
  0 < rng (env_37 (frac 1 2)) (nrand (env_37 (frac 1 2))) ∧
  ∃ e' o',
    Collapse 1%nat (env_37 (frac 1 2)) = Some (tt, e') ∧
    heap e' !! 1%nat = Some o' ∧
    (IsCollapsed o' = true →
     ∃ w, CoordDist obj_37 !! FinalCoord o' = Some w ∧ 0 < w).
Proof.
  split; [reflexivity|]. split; [reflexivity|]. split; [reflexivity|].
  apply (Collapse_selects_positive_weight (env_37 (frac 1 2)) 1%nat obj_37);
    reflexivity.
Defined.




(** ** What NormalizeDistribution and Collapse leave alone *)




Lemma Collapse_obj_shape (e : Env) (o : QuantumObject) :
  Name (Collapse_obj e o) = Name o ∧
  dom (CoordDist (Collapse_obj e o)) = dom (CoordDist o) ∧
  (IsCollapsed o = false → CoordDist (Collapse_obj e o) = normalized (CoordDist o)).
Proof.
  unfold Collapse_obj. destruct (IsCollapsed o); [done|].
  destruct (selected _ _ _); simpl; by rewrite dom_normalized.
Qed.

(** X5. Collapse touches one object and reads at most one random number.
    It never panics on an allocated object; every other object of the
    store is left as it was; the object keeps its name and the keys of its
    distribution; an uncollapsed object is left with its distribution
    normalized, whether or not a coordinate was selected; and the call
    consumes exactly one draw of the random stream when the object was
    uncollapsed, none when it was collapsed. *)
Theorem Collapse_touches_one_object (e : Env) (q : ptr) (o : QuantumObject) :
  heap e !! q = Some o →
  ∃ e' o',
    Collapse q e = Some (tt, e') ∧ heap e' !! q = Some o' ∧
    (∀ p, p ≠ q → heap e' !! p = heap e !! p) ∧
    Name o' = Name o ∧
    dom (CoordDist o') = dom (CoordDist o) ∧
    (IsCollapsed o = false → CoordDist o' = normalized (CoordDist o)) ∧
    rng e' = rng e ∧
    nrand e' = (nrand e + (if IsCollapsed o then 0 else 1))%nat.
Proof.
  intros Hq. destruct (Collapse_obj_shape e o) as (Hname & Hdom & Hdist).
  destruct (IsCollapsed o) eqn:Hc.
  - exists e, o. split; [by apply (Collapse_run_collapsed q o)|].
    repeat split; done.
  - eexists _, (Collapse_obj e o).
    split; [by apply Collapse_run_uncollapsed|].
    split; [simpl; apply lookup_insert_eq|].
    split; [intros p Hp; simpl; by rewrite lookup_insert_ne|].
    repeat split; done.
Qed.

Lemma Collapse_touches_one_object_witness :
  heap env_AB !! 1%nat = Some obj_A ∧
  ∃ e' o',
    Collapse 1%nat env_AB = Some (tt, e') ∧ heap e' !! 1%nat = Some o' ∧
    (∀ p, p ≠ 1%nat → heap e' !! p = heap env_AB !! p) ∧
    Name o' = Name obj_A ∧
    dom (CoordDist o') = dom (CoordDist obj_A) ∧
    (IsCollapsed obj_A = false → CoordDist o' = normalized (CoordDist obj_A)) ∧
    rng e' = rng env_AB ∧
    nrand e' = (nrand env_AB + (if IsCollapsed obj_A then 0 else 1))%nat.
Proof.
  split; [reflexivity|].
  apply (Collapse_touches_one_object env_AB 1%nat obj_A). reflexivity.
Defined.

(** The environment a call of [Collapse] leaves, on any allocated object. *)
Lemma Collapse_run_any (q : ptr) (o : QuantumObject) (e : Env) :
  heap e !! q = Some o →
  Collapse q e
  = Some (tt, advance (<[q := Collapse_obj e o]> (heap e))
                (if IsCollapsed o then 0 else norm_loops (CoordDist o) + 1)
                (if IsCollapsed o then 0 else 1) e).
Proof.
  intros Hq. destruct (IsCollapsed o) eqn:Hc.
  - rewrite (Collapse_run_collapsed q o e Hq Hc).
    unfold Collapse_obj. by rewrite Hc, insert_id, advance_same.
  - by apply Collapse_run_uncollapsed.
Qed.

(** ** MeasureInteraction (main.go, lines 92-133): frame and outcome *)

Lemma only_narrows_refl (a b : ptr) (h : gmap ptr QuantumObject) :
  only_narrows a b h h.
Proof. split; [done|]. intros p o Hp. by exists o. Qed.

Lemma only_narrows_trans (a b : ptr) (h1 h2 h3 : gmap ptr QuantumObject) :
  only_narrows a b h1 h2 → only_narrows a b h2 h3 → only_narrows a b h1 h3.
Proof.
  intros [D12 H12] [D23 H23]. split; [congruence|].
  intros p o Hp.
  destruct (H12 p o Hp) as (o2 & Hp2 & Hn2 & Hd2 & Hs2).
  destruct (H23 p o2 Hp2) as (o3 & Hp3 & Hn3 & Hd3 & Hs3).
  exists o3. split; [done|]. split; [congruence|].
  split; [by etrans|]. intros Ha Hb. rewrite Hs3, Hs2 by done. done.
Qed.

Lemma only_narrows_insert (a b q : ptr) (h : gmap ptr QuantumObject)
    (o o' : QuantumObject) :
  h !! q = Some o → q = a ∨ q = b →
  Name o' = Name o → dom (CoordDist o') ⊆ dom (CoordDist o) →
  only_narrows a b h (<[q := o']> h).
Proof.
  intros Hq Hab Hname Hdom. split.
  - rewrite dom_insert_L. apply subseteq_union_1_L, singleton_subseteq_l.
    by eapply elem_of_dom_2.
  - intros p x Hp. destruct (decide (q = p)) as [<-|Hne].
    + exists o'. rewrite lookup_insert_eq. rewrite Hq in Hp. injection Hp as ->.
      split; [done|]. split; [done|]. split; [done|].
      intros Ha Hb. by destruct Hab.
    + exists x. by rewrite lookup_insert_ne.
Qed.

Lemma dom_overlap (m1 m2 : Dist) :
  dom (overlap m1 m2) ⊆ dom m1 ∧ dom (overlap m1 m2) ⊆ dom m2.
Proof.
  split; intros c [w Hc]%elem_of_dom; rewrite lookup_overlap in Hc;
    apply elem_of_dom; destruct (m1 !! c), (m2 !! c); done.
Qed.

(** X6. MeasureInteraction never panics on allocated objects, whether or
    not the two pointers alias, and its effect is confined: the store keeps
    the same pointers, every object keeps its name, no distribution gains a
    coordinate (an interaction can only narrow a distribution), and every
    object other than the two arguments is left exactly as it was. *)
Theorem MeasureInteraction_only_narrows (e : Env) (obj1 obj2 : ptr) :
  obj1 ∈ dom (heap e) → obj2 ∈ dom (heap e) →
  ∃ e',
    MeasureInteraction obj1 obj2 e = Some (tt, e') ∧
    dom (heap e') = dom (heap e) ∧
    ∀ p o, heap e !! p = Some o →
      ∃ o', heap e' !! p = Some o' ∧ Name o' = Name o ∧
            dom (CoordDist o') ⊆ dom (CoordDist o) ∧
            (p ≠ obj1 → p ≠ obj2 → o' = o).
Proof.
  intros [o1 H1]%elem_of_dom [o2 H2]%elem_of_dom.
  enough (∃ e', MeasureInteraction obj1 obj2 e = Some (tt, e') ∧
                only_narrows obj1 obj2 (heap e) (heap e')) as (e' & Hrun & Hn & Hall).
  { by exists e'. }
  unfold MeasureInteraction.
  erewrite bind_run by by apply both_collapsed_run.
  destruct (IsCollapsed o1 && IsCollapsed o2).
  { exists e. split; [done|apply only_narrows_refl]. }
  destruct (normalize_both_run obj1 obj2 o1 o2 e H1 H2) as [k Hk].
  unfold mbind, M_bind in Hk |- *.
  destruct (NormalizeDistribution obj1 e) as [[[] e1]|]; [|done].
  rewrite Hk.
  set (h2 := <[obj2 := normalized_obj o2]> (<[obj1 := normalized_obj o1]> (heap e))).
  assert (only_narrows obj1 obj2 (heap e) h2) as N2.
  { eapply only_narrows_trans.
    - apply (only_narrows_insert _ _ obj1 _ o1 (normalized_obj o1));
        [done|by left|done|]. simpl. by rewrite dom_normalized.
    - destruct (decide (obj1 = obj2)) as [<-|Hne].
      + apply (only_narrows_insert _ _ obj1 _ (normalized_obj o1) (normalized_obj o2));
          [apply lookup_insert_eq|by left| |].
        * simpl. congruence.
        * simpl. rewrite !dom_normalized. congruence.
      + apply (only_narrows_insert _ _ obj2 _ o2 (normalized_obj o2));
          [by rewrite lookup_insert_ne|by right|done|].
        simpl. by rewrite dom_normalized. }
  assert (h2 !! obj1 = Some (normalized_obj o1)) as H21
    by apply (lookup_normalized_both_l obj1 obj2 o1 o2 e k H1 H2).
  assert (h2 !! obj2 = Some (normalized_obj o2)) as H22 by apply lookup_insert_eq.
  erewrite (combine_run obj1 obj2 (normalized_obj o1) (normalized_obj o2)) by done.
  rewrite advance_advance. simpl.
  set (R := overlap (normalized (CoordDist o1)) (normalized (CoordDist o2))).
  destruct (dom_overlap (normalized (CoordDist o1)) (normalized (CoordDist o2)))
    as [HR1 HR2]. fold R in HR1, HR2.
  destruct (bool_decide (size R = 0%nat) || bool_decide (size R = 0%nat)).
  { eexists. split; [reflexivity|]. exact N2. }
  erewrite modify_run by exact H21. rewrite advance_advance. simpl.
  set (h3 := <[obj1 := with_CoordDist R (normalized_obj o1)]> h2).
  assert (only_narrows obj1 obj2 h2 h3) as N3.
  { by apply (only_narrows_insert _ _ obj1 _ (normalized_obj o1)); [|left| |]. }
  assert (∃ x, h3 !! obj2 = Some x ∧ dom R ⊆ dom (CoordDist x)) as (x2 & H32 & Hx2).
  { unfold h3. destruct (decide (obj1 = obj2)) as [<-|Hne].
    - eexists. rewrite lookup_insert_eq. split; [done|]. done.
    - eexists. rewrite lookup_insert_ne by done. split; [exact H22|]. done. }
  erewrite modify_run by exact H32. rewrite advance_advance. simpl.
  set (h4 := <[obj2 := with_CoordDist R x2]> h3).
  assert (only_narrows obj1 obj2 h3 h4) as N4.
  { by apply (only_narrows_insert _ _ obj2 _ x2); [|right| |]. }
  assert (obj1 ∈ dom h4) as [y1 H41]%elem_of_dom.
  { rewrite (proj1 N4), (proj1 N3). by apply elem_of_dom_2 in H21. }
  rewrite (Collapse_run_any obj1 y1) by done.
  simpl.
  set (h5 := <[obj1 := _]> h4).
  assert (only_narrows obj1 obj2 h4 h5) as N5.
  { apply (only_narrows_insert _ _ obj1 _ y1); [done|by left| |].
    - apply Collapse_obj_shape.
    - by rewrite (proj1 (proj2 (Collapse_obj_shape _ y1))). }
  assert (obj2 ∈ dom h5) as [y2 H52]%elem_of_dom.
  { rewrite (proj1 N5), (proj1 N4). by apply elem_of_dom_2 in H32. }
  erewrite (Collapse_run_any obj2 y2) by done.
  eexists. split; [reflexivity|]. simpl.
  eapply only_narrows_trans; [exact N2|].
  eapply only_narrows_trans; [exact N3|].
  eapply only_narrows_trans; [exact N4|].
  eapply only_narrows_trans; [exact N5|].
  apply (only_narrows_insert _ _ obj2 _ y2); [done|by right| |].
  - apply Collapse_obj_shape.
  - by rewrite (proj1 (proj2 (Collapse_obj_shape _ y2))).
Qed.

Lemma MeasureInteraction_only_narrows_witness :
  1%nat ∈ dom (heap env_AB) ∧ 2%nat ∈ dom (heap env_AB) ∧
  ∃ e',
    MeasureInteraction 1%nat 2%nat env_AB = Some (tt, e') ∧
    dom (heap e') = dom (heap env_AB) ∧
    ∀ p o, heap env_AB !! p = Some o →
      ∃ o', heap e' !! p = Some o' ∧ Name o' = Name o ∧
            dom (CoordDist o') ⊆ dom (CoordDist o) ∧
            (p ≠ 1%nat → p ≠ 2%nat → o' = o).
Proof.
  assert (1%nat ∈ dom (heap env_AB)) as H1 by (apply elem_of_dom; by eexists).
  assert (2%nat ∈ dom (heap env_AB)) as H2 by (apply elem_of_dom; by eexists).
  split; [exact H1|]. split; [exact H2|].
  exact (MeasureInteraction_only_narrows env_AB 1%nat 2%nat H1 H2).
Defined.














Lemma overlap_comm (m1 m2 : Dist) : overlap m1 m2 = overlap m2 m1.
Proof.
  apply map_eq. intros c. rewrite !lookup_overlap.
  destruct (m1 !! c) as [p1|], (m2 !! c) as [p2|]; try done.
  by rewrite andb_comm, Qcmult_comm.
Qed.

(** X9. The map the nested loops build does not depend on which object is
    the first argument: run in the same store, the loops of
    MeasureInteraction(a, b) and of MeasureInteraction(b, a) return the
    same map (twice each), whatever the schedules. *)
Theorem combine_symmetric (e1 e2 : Env) (a b : ptr) (oa ob : QuantumObject) :
  heap e1 !! a = Some oa → heap e1 !! b = Some ob →
  heap e2 = heap e1 →
  ∃ e1' e2' newDist,
    combine a b e1 = Some ((newDist, newDist), e1') ∧
    combine b a e2 = Some ((newDist, newDist), e2').
Proof.
  intros Ha Hb Hh. eexists _, _, _.
  split; [by apply combine_run|].
  rewrite (overlap_comm (CoordDist oa)).
  apply combine_run; by rewrite Hh.
Qed.

Lemma combine_symmetric_witness :
  heap env_AB !! 1%nat = Some obj_A ∧ heap env_AB !! 2%nat = Some obj_B ∧
  ∃ e1' e2' newDist,
    combine 1%nat 2%nat env_AB = Some ((newDist, newDist), e1') ∧
    combine 2%nat 1%nat env_AB = Some ((newDist, newDist), e2').
Proof.
  split; [reflexivity|]. split; [reflexivity|].
  apply (combine_symmetric env_AB env_AB 1%nat 2%nat obj_A obj_B); reflexivity.
Defined.

(** ** uniformDistribution (main.go, lines 143-151) *)

Lemma uniform_row_lookup (x : Z) (ys : list Z) (d : Dist) (c : Coord) :
  foldl (λ dist y, <[(x, y) := 1]> dist) d ys !! c
  = if bool_decide (c.1 = x ∧ c.2 ∈ ys) then Some 1 else d !! c.
Proof.
  revert d. induction ys as [|y ys IH]; intros d; simpl.
  - rewrite bool_decide_eq_false_2; [done|]. intros [_ H]. by apply elem_of_nil in H.
  - rewrite IH. destruct c as [cx cy]. simpl.
    destruct (decide (cx = x ∧ cy ∈ ys)) as [[-> Hin]|Hnin].
    + rewrite !bool_decide_eq_true_2; [done| |done]. split; [done|by right].
    + rewrite (bool_decide_eq_false_2 _ Hnin).
      destruct (decide ((x, y) = (cx, cy))) as [[= <- <-]|Hne].
      * rewrite lookup_insert_eq, bool_decide_eq_true_2; [done|]. split; [done|left].
      * rewrite lookup_insert_ne by done.
        rewrite bool_decide_eq_false_2; [done|].
        intros [-> [->|Hin]%elem_of_cons]; [by apply Hne|by apply Hnin].
Qed.

Lemma uniform_grid_lookup (xs ys : list Z) (d : Dist) (c : Coord) :
  foldl (λ dist x, foldl (λ dist y, <[(x, y) := 1]> dist) dist ys) d xs !! c
  = if bool_decide (c.1 ∈ xs ∧ c.2 ∈ ys) then Some 1 else d !! c.
Proof.
  revert d. induction xs as [|x xs IH]; intros d; simpl.
  - done.
  - rewrite IH, uniform_row_lookup.
    destruct (decide (c.1 ∈ xs ∧ c.2 ∈ ys)) as [[Hx Hy]|Hnin].
    + rewrite !bool_decide_eq_true_2; [done| |done]. split; [by right|done].
    + rewrite (bool_decide_eq_false_2 _ Hnin).
      destruct (decide (c.1 = x ∧ c.2 ∈ ys)) as [[Hx Hy]|Hne].
      * rewrite !bool_decide_eq_true_2; [done| |done].
        split; [apply elem_of_cons; by left|done].
      * rewrite !bool_decide_eq_false_2; [done| |done].
        intros [[Heq|Hin]%elem_of_cons Hy]; [by apply Hne|by apply Hnin].
Qed.

Lemma uniformDistribution_lookup (width height : Z) (c : Coord) :
  uniformDistribution width height !! c
  = if bool_decide ((0 ≤ c.1 < width)%Z ∧ (0 ≤ c.2 < height)%Z)
    then Some 1 else None.
Proof.
  unfold uniformDistribution. rewrite uniform_grid_lookup, lookup_empty.
  apply (f_equal (λ b : bool, if b then Some (1 : Qc) else None)).
  apply bool_decide_ext. rewrite !elem_of_seqZ. lia.
Qed.

(** The cells of the grid, listed without repetition. *)
Lemma dom_uniformDistribution (width height : Z) :
  dom (uniformDistribution width height)
  = list_to_set (x ← seqZ 0 width; (λ y, (x, y)) <$> seqZ 0 height).
Proof.
  apply set_eq. intros [x y].
  rewrite elem_of_dom, uniformDistribution_lookup, elem_of_list_to_set,
    list_elem_of_bind. simpl. split.
  - case_bool_decide as H; [|by intros [? ?]]. intros _.
    exists x. split; [|apply elem_of_seqZ; lia].
    apply list_elem_of_fmap. exists y. split; [done|apply elem_of_seqZ; lia].
  - intros (x' & Hin & Hx'). apply list_elem_of_fmap in Hin as (y' & [= -> ->] & Hy').
    apply elem_of_seqZ in Hx', Hy'. rewrite bool_decide_eq_true_2 by lia. by eexists.
Qed.

Lemma NoDup_grid (xs ys : list Z) :
  NoDup xs → NoDup ys → NoDup (x ← xs; (λ y, (x, y)) <$> ys).
Proof.
  intros Hxs Hys. induction Hxs as [|x xs Hx _ IH]; [constructor|].
  simpl. apply NoDup_app. split; [|split; [|done]].
  - apply NoDup_fmap_2; [|done]. by intros ?? [= ->].
  - intros c [y [-> _]]%list_elem_of_fmap [x' [Hin Hx']]%list_elem_of_bind.
    apply list_elem_of_fmap in Hin as (y' & [= <- _] & _). done.
Qed.

Lemma length_grid (xs ys : list Z) :
  length (x ← xs; (λ y, (x, y)) <$> ys) = (length xs * length ys)%nat.
Proof.
  induction xs as [|x xs IH]; [done|].
  rewrite bind_cons, length_app, length_fmap, IH. done.
Qed.

Lemma size_uniformDistribution (width height : Z) :
  size (uniformDistribution width height) = (Z.to_nat width * Z.to_nat height)%nat.
Proof.
  rewrite <- size_dom, dom_uniformDistribution, size_list_to_set
    by (apply NoDup_grid; apply NoDup_seqZ).
  by rewrite length_grid, !length_seqZ.
Qed.

(** X10. uniformDistribution(width, height) is the map that gives the
    weight 1 to the cells (x, y) with 0 <= x < width and 0 <= y < height,
    and has no other key; it has width * height entries, and is empty when
    either bound is not positive (zero or negative). *)
Theorem uniformDistribution_is_the_grid (width height : Z) :
  (∀ x y,
     uniformDistribution width height !! (x, y)
     = if bool_decide ((0 ≤ x < width)%Z ∧ (0 ≤ y < height)%Z)
       then Some 1 else None) ∧
  size (uniformDistribution width height)
    = (Z.to_nat width * Z.to_nat height)%nat ∧
  ((width ≤ 0)%Z ∨ (height ≤ 0)%Z → uniformDistribution width height = ∅).
Proof.
  split; [intros x y; apply uniformDistribution_lookup|].
  split; [apply size_uniformDistribution|].
  intros Hwh. apply map_size_empty_iff. rewrite size_uniformDistribution. lia.
Qed.







(** ** CollapseAll and AddQuantumObject (main.go, lines 83-85 and 136-140) *)







(** ** String (main.go, lines 58-65) *)

Lemma chars_app (s1 s2 : string) :
  list_ascii_of_string (s1 +:+ s2)
  = list_ascii_of_string s1 ++ list_ascii_of_string s2.
Proof. induction s1 as [|c s1 IH]; simpl; [done|]. by rewrite IH. Qed.

Lemma chars_inj (s1 s2 : string) :
  list_ascii_of_string s1 = list_ascii_of_string s2 → s1 = s2.
Proof.
  intros H. rewrite <- (string_of_list_ascii_of_string s1),
    <- (string_of_list_ascii_of_string s2). by rewrite H.
Qed.

Lemma string_append_assoc (s1 s2 s3 : string) :
  (s1 +:+ s2) +:+ s3 = s1 +:+ s2 +:+ s3.
Proof. apply chars_inj. by rewrite !chars_app, (assoc_L (++)). Qed.

Lemma pretty_N_char_decimal (x : N) : decimal_char (pretty_N_char x).
Proof.
  unfold decimal_char, pretty_N_char.
  repeat case_match; simpl; repeat first [by left|right].
Qed.

Lemma pretty_N_go_chars (x : N) (s : string) :
  ∃ t, pretty_N_go x s = t +:+ s ∧
       Forall decimal_char (list_ascii_of_string t) ∧
       ((0 < x)%N → t ≠ "").
Proof.
  revert s. induction (N.lt_wf_0 x) as [x _ IH]; intros s.
  destruct (decide (0 < x)%N) as [Hx|Hx].
  - rewrite pretty_N_go_step by done.
    destruct (IH (x `div` 10)%N (N.div_lt x 10 Hx eq_refl)
                (String (pretty_N_char (x `mod` 10)) s)) as (t & -> & Ht & _).
    exists (t +:+ String (pretty_N_char (x `mod` 10)) "").
    split; [|split].
    + by rewrite string_append_assoc.
    + rewrite chars_app. apply Forall_app. split; [done|].
      apply Forall_singleton, pretty_N_char_decimal.
    + intros _. by destruct t.
  - assert (x = 0%N) as -> by lia. exists "". split; [done|].
    split; [constructor|lia].
Qed.

(** A number printed by [%d] is a non-empty row of decimal characters. *)
Lemma pretty_Z_chars (z : Z) :
  Forall decimal_char (list_ascii_of_string (pretty z)) ∧ pretty z ≠ "".
Proof.
  assert (∀ p : positive,
    Forall decimal_char (list_ascii_of_string (pretty (Npos p)))
    ∧ pretty (Npos p) ≠ "") as Hpos.
  { intros p. unfold pretty, pretty_N.
    rewrite decide_False by done.
    destruct (pretty_N_go_chars (N.pos p) "") as (t & -> & Ht & Hne).
    assert (t +:+ "" = t) as ->
      by (apply chars_inj; rewrite chars_app; simpl; apply (right_id_L [] (++))).
    split; [done|]. apply Hne. lia. }
  destruct z as [|p|p].
  - split; [|done]. apply Forall_singleton. unfold decimal_char. simpl. left.
  - apply Hpos.
  - destruct (Hpos p) as [Hc Hne]. split; [|done].
    change (pretty (Z.neg p)) with ("-" +:+ pretty (N.pos p)). simpl.
    apply Forall_cons. split; [|done].
    unfold decimal_char. simpl. repeat first [by left|right].
Qed.

Lemma app_cons_split {A : Type} (c : A) (l1 l2 t1 t2 : list A) :
  c ∉ l1 → c ∉ l2 → l1 ++ c :: t1 = l2 ++ c :: t2 → l1 = l2 ∧ t1 = t2.
Proof.
  revert l2. induction l1 as [|x l1 IH]; intros [|y l2] H1 H2 Heq; simpl in *.
  - by injection Heq.
  - injection Heq as <- _. exfalso. apply H2. left.
  - injection Heq as -> _. exfalso. apply H1. left.
  - injection Heq as -> Heq. apply not_elem_of_cons in H1 as [_ H1].
    apply not_elem_of_cons in H2 as [_ H2].
    destruct (IH l2 H1 H2 Heq) as [-> ->]. done.
Qed.

Lemma decimal_not_elem (c : ascii) (s : string) :
  ¬ decimal_char c → Forall decimal_char (list_ascii_of_string s) →
  c ∉ reverse (list_ascii_of_string s).
Proof.
  intros Hc Hs Hin. rewrite elem_of_reverse in Hin.
  rewrite Forall_forall in Hs. by apply Hc, Hs.
Qed.

(** X14. The text of an object tells its state.  Whatever the names are
    (a name may hold any characters), when two objects print the same text
    they are both collapsed or both uncollapsed, and if they are collapsed
    they have the same final coordinate: the text of a collapsed object is
    never the text of an uncollapsed one, and the coordinate can be read
    back from the text. *)
Theorem QuantumObject_String_tells_state (o1 o2 : QuantumObject) :
  QuantumObject_String o1 = QuantumObject_String o2 →
  IsCollapsed o1 = IsCollapsed o2 ∧
  (IsCollapsed o1 = true → FinalCoord o1 = FinalCoord o2).
Proof.
  intros Heq. apply (f_equal list_ascii_of_string) in Heq.
  apply (f_equal reverse) in Heq.
  assert (¬ decimal_char " ") as Hsp.
  { unfold decimal_char. simpl. rewrite !elem_of_cons, elem_of_nil.
    intros H. by repeat destruct H as [H|H]. }
  assert (¬ decimal_char "(") as Hpa.
  { unfold decimal_char. simpl. rewrite !elem_of_cons, elem_of_nil.
    intros H. by repeat destruct H as [H|H]. }
  assert (¬ decimal_char "d") as Hd.
  { unfold decimal_char. simpl. rewrite !elem_of_cons, elem_of_nil.
    intros H. by repeat destruct H as [H|H]. }
  assert (∀ z : Z, ∃ c l, reverse (list_ascii_of_string (pretty z)) = c :: l
                          ∧ decimal_char c) as Hhead.
  { intros z. destruct (pretty_Z_chars z) as [Hall Hne].
    destruct (reverse (list_ascii_of_string (pretty z))) as [|c l] eqn:Hrev.
    - apply (f_equal reverse) in Hrev. rewrite reverse_involutive in Hrev.
      simpl in Hrev. exfalso. apply Hne, chars_inj. by rewrite Hrev.
    - exists c, l. split; [done|]. rewrite Forall_forall in Hall.
      apply Hall, elem_of_reverse. rewrite Hrev. left. }
  unfold QuantumObject_String in Heq.
  destruct (IsCollapsed o1) eqn:Hc1, (IsCollapsed o2) eqn:Hc2.
  - split; [done|]. intros _.
    rewrite !chars_app, !reverse_app in Heq. simpl in Heq.
    rewrite <- !(assoc_L (++)) in Heq. simpl in Heq.
    injection Heq as Heq.
    apply app_cons_split in Heq as [Hy Heq];
      [|apply decimal_not_elem; [done|apply pretty_Z_chars]..].
    injection Heq as Heq.
    apply app_cons_split in Heq as [Hx _];
      [|apply decimal_not_elem; [done|apply pretty_Z_chars]..].
    apply (inj reverse), chars_inj, (inj pretty) in Hx, Hy.
    destruct (FinalCoord o1), (FinalCoord o2). simpl in *. congruence.
  - exfalso. rewrite !chars_app, !reverse_app in Heq. simpl in Heq.
    rewrite <- !(assoc_L (++)) in Heq. simpl in Heq.
    destruct (Hhead (FinalCoord o1).2) as (c & l & Hrev & Hc).
    rewrite Hrev in Heq. simpl in Heq. injection Heq as -> _. done.
  - exfalso. rewrite !chars_app, !reverse_app in Heq. simpl in Heq.
    rewrite <- !(assoc_L (++)) in Heq. simpl in Heq.
    destruct (Hhead (FinalCoord o2).2) as (c & l & Hrev & Hc).
    rewrite Hrev in Heq. simpl in Heq. injection Heq as <- _. done.
  - done.
Qed.

Lemma QuantumObject_String_tells_state_witness :
  QuantumObject_String obj_A_done = "<A collapsed at (0, 0)>" ∧
  QuantumObject_String (collapsed_at (0, 0)%Z obj_B) = "<B collapsed at (0, 0)>" ∧
  QuantumObject_String obj_A_done
  = QuantumObject_String (collapsed_at (0, 0)%Z (NewQuantumObject "A" ∅)) ∧
  IsCollapsed obj_A_done
  = IsCollapsed (collapsed_at (0, 0)%Z (NewQuantumObject "A" ∅)) ∧
  (IsCollapsed obj_A_done = true →
   FinalCoord obj_A_done
   = FinalCoord (collapsed_at (0, 0)%Z (NewQuantumObject "A" ∅))).
Proof.
  split; [reflexivity|]. split; [reflexivity|]. split; [reflexivity|].
  apply (QuantumObject_String_tells_state obj_A_done
           (collapsed_at (0, 0)%Z (NewQuantumObject "A" ∅))).
  reflexivity.
Defined.

(** ** gaussFactor (main.go, lines 154-159) *)

Lemma wrap_int_id (z : Z) : is_int z → wrap_int z = z.
Proof.
  unfold is_int, wrap_int. intros Hz.
  rewrite Z.mod_small by lia. lia.
Qed.

(** Negation commutes with wrap-around, except at the least [int], which
    is its own negation; the squares agree in both cases. *)
Lemma wrap_int_opp_square (z : Z) :
  (wrap_int (- z) * wrap_int (- z) = wrap_int z * wrap_int z)%Z.
Proof.
  assert (wrap_int (- z) = (- wrap_int z)%Z ∨ wrap_int (- z) = wrap_int z) as [->| ->];
    [|lia|done].
  unfold wrap_int.
  pose proof (Z.div_mod (z + 2 ^ 63) (2 ^ 64)) as H1.
  pose proof (Z.div_mod (- z + 2 ^ 63) (2 ^ 64)) as H2.
  pose proof (Z.mod_pos_bound (z + 2 ^ 63) (2 ^ 64)) as B1.
  pose proof (Z.mod_pos_bound (- z + 2 ^ 63) (2 ^ 64)) as B2.
  lia.
Qed.

Lemma Qc_of_Z_squares (a b : Z) :
  Qc_of_Z a * Qc_of_Z a + Qc_of_Z b * Qc_of_Z b = Qc_of_Z (a * a + b * b).
Proof.
  unfold Qc_of_Z. apply Qc_is_canon. rewrite Qc_this_plus. simpl.
  rewrite !Qred_correct. unfold Qeq, Qplus, Qmult, inject_Z. simpl. lia.
Qed.

Lemma half_neg_antitone (m n : Z) :
  (m ≤ n)%Z → frac (-5) 10 * Qc_of_Z n ≤ frac (-5) 10 * Qc_of_Z m.
Proof.
  intros Hmn. unfold Qcle, Qc_of_Z, frac. simpl. rewrite !Qred_correct.
  unfold Qle, Qmult, inject_Z. simpl. lia.
Qed.

(** The factor as a function of the squared distance, an integer. *)
Lemma gaussFactor_distSq (math_Exp : Qc → Qc) (x y cx cy : Z) :
  gaussFactor math_Exp x y cx cy
  = math_Exp (frac (-5) 10 *
       Qc_of_Z (wrap_int (x - cx) * wrap_int (x - cx)
                + wrap_int (y - cy) * wrap_int (y - cy))).
Proof. unfold gaussFactor. by rewrite Qc_of_Z_squares. Qed.


(** X15. gaussFactor is symmetric in the point and the centre: the factor
    of (x, y) around (cx, cy) is the factor of (cx, cy) around (x, y),
    whatever [math.Exp] computes and also when a difference overflows the
    64-bit [int] (at the least [int] the wrapped difference is its own
    negation, and only its square is used); at the centre the factor is
    [math.Exp(0)]. *)
Theorem gaussFactor_symmetric (math_Exp : Qc → Qc) (x y cx cy : Z) :
  gaussFactor math_Exp x y cx cy = gaussFactor math_Exp cx cy x y ∧
  gaussFactor math_Exp cx cy cx cy = math_Exp 0.
Proof.
  split.
  - rewrite !gaussFactor_distSq.
    replace (cx - x)%Z with (- (x - cx))%Z by lia.
    replace (cy - y)%Z with (- (y - cy))%Z by lia.
    by rewrite !wrap_int_opp_square.
  - rewrite gaussFactor_distSq, !Z.sub_diag. f_equal.
    by apply Qc_is_canon.
Qed.

(** X16. gaussFactor falls with the distance from the centre: when
    [math.Exp] never decreases and the four differences do not overflow,
    a point whose squared distance to the centre is at least that of
    another point has a factor at most that of the other point. *)
Theorem gaussFactor_falls_with_distance (math_Exp : Qc → Qc)
    (x y x' y' cx cy : Z) :
  (∀ u v, u ≤ v → math_Exp u ≤ math_Exp v) →
  is_int (x - cx) → is_int (y - cy) → is_int (x' - cx) → is_int (y' - cy) →
  ((x - cx) * (x - cx) + (y - cy) * (y - cy)
   ≤ (x' - cx) * (x' - cx) + (y' - cy) * (y' - cy))%Z →
  gaussFactor math_Exp x' y' cx cy ≤ gaussFactor math_Exp x y cx cy.
Proof.
  intros Hmono Hx Hy Hx' Hy' Hle.
  rewrite !gaussFactor_distSq, !wrap_int_id by done.
  by apply Hmono, half_neg_antitone.
Qed.

Lemma Qc_this_opp (a : Qc) : (this (- a) == - this a)%Q.
Proof. simpl. apply Qred_correct. Qed.

Lemma one_minus_neg (w : Qc) : w < 0 → 1 ≤ 1 - w.
Proof.
  unfold Qcminus. intros Hw. unfold Qclt, Qcle in *.
  rewrite Qc_this_plus, Qc_this_opp.
  change (this (Q2Qc 0)) with 0%Q in *. change (this (Q2Qc 1)) with 1%Q in *. lra.
Qed.


Lemma exp_rational_mono (u v : Qc) : u ≤ v → exp_rational u ≤ exp_rational v.
Proof.
  intros Huv. unfold exp_rational.
  assert (∀ w, w < 0 → 0 < 1 - w) as Hpos.
  { intros w Hw. eapply Qclt_le_trans; [|by apply one_minus_neg]. done. }
  assert (∀ w, 0 < w → w ≠ 0) as Hnz.
  { intros w Hw ->. by apply Qclt_not_eq in Hw. }
  case_bool_decide as Hu; case_bool_decide as Hv.
  - apply (Qcmult_lt_0_le_reg_r _ _ ((1 - u) * (1 - v))).
    { apply Qcmult_pos_pos; by apply Hpos. }
    replace (1 / (1 - u) * ((1 - u) * (1 - v))) with (1 - v)
      by (field; by apply Hnz, Hpos).
    replace (1 / (1 - v) * ((1 - u) * (1 - v))) with (1 - u)
      by (field; by apply Hnz, Hpos).
    unfold Qcminus. apply Qcplus_le_compat; [apply Qcle_refl|].
    by apply Qcopp_le_compat.
  - apply (Qcmult_lt_0_le_reg_r _ _ (1 - u)); [by apply Hpos|].
    replace (1 / (1 - u) * (1 - u)) with 1 by (field; by apply Hnz, Hpos).
    eapply Qcle_trans; [by apply (one_minus_neg u)|].
    rewrite <- (Qcmult_1_l (1 - u)) at 1.
    apply Qcmult_le_compat_r.
    + apply Qcnot_lt_le in Hv. qc_lra.
    + apply Qclt_le_weak. by apply Hpos.
  - exfalso. apply Hu. eapply Qcle_lt_trans; [exact Huv|done].
  - apply Qcplus_le_compat; [apply Qcle_refl|done].
Qed.

(** Around the centre (3,3), the cell (5,3) is farther than the cell
    (4,3): its factor is 1/3, against 2/3. *)
Lemma gaussFactor_falls_with_distance_witness :
  gaussFactor exp_rational 5 3 3 3 = frac 1 3 ∧
  gaussFactor exp_rational 4 3 3 3 = frac 2 3 ∧
  gaussFactor exp_rational 5 3 3 3 ≤ gaussFactor exp_rational 4 3 3 3.
Proof.
  split; [by apply Qc_is_canon|]. split; [by apply Qc_is_canon|].
  apply (gaussFactor_falls_with_distance exp_rational 4 3 5 3 3 3).
  - exact exp_rational_mono.
  - unfold is_int. lia.
  - unfold is_int. lia.
  - unfold is_int. lia.
  - unfold is_int. lia.
  - lia.
Defined.

(** ** exampleScenario (main.go, lines 161-206) *)











